(** * A voxel-world demo: block store, world generation, visibility, player tick

    Shallow embedding of [src/components/Minecraft.tsx].

    Conventions.
    - A TypeScript [number] is carried as the rational it denotes ([Q]);
      [===] and the comparisons on numbers are [Qeq_bool], [Qle_bool] and
      friends.  The store, the generator and the player tick compute on
      these rationals.  The distance test of [visibleBlocks], whose result
      depends on rounding, computes on binary64 doubles ([PrimFloat]), on
      the doubles in which the numbers are held.
    - A React state cell is a value; an updater [setX (prev => e)] is the
      function [fun prev => e]; a handler that reads the state of the render
      that created it takes that state as an explicit argument.
    - The noise function of [simplex-noise], the results of [Math.random]
      and the [three.js] operations [Vector3.normalize] and
      [Vector3.applyEuler] are parameters of the sections that use them. *)

From Stdlib Require Import ZArith QArith Qround Bool List Lia Lqa String.
From Stdlib Require Import DecimalString.
From Stdlib Require Import Floats.
Import ListNotations.

Local Open Scope Z_scope.
Local Open Scope Q_scope.

(** ** Block types and blocks *)

(** The keys of [BLOCK_TYPES], i.e. [type BlockType = keyof typeof BLOCK_TYPES]. *)
Inductive BlockType : Set :=
| grass | dirt | stone | wood | leaves | planks
| bricks | glass | wool | flower | torch | stairs.

(** [interface Block { x: number; y: number; z: number; type: BlockType }] *)
Record Block : Set := mkBlock { x : Q; y : Q; z : Q; type : BlockType }.

Definition RENDER_DISTANCE : Q := 8.
Definition WORLD_SIZE : Z := 32.

(** [THREE.Vector3], restricted to its three components. *)
Module Vector3.
Record t : Set := mk { x : Q; y : Q; z : Q }.

(** [v.add(w)] *)
Definition add (v w : t) : t := mk (x v + x w) (y v + y w) (z v + z w).
Definition set_x (v : t) (a : Q) : t := mk a (y v) (z v).
Definition set_y (v : t) (a : Q) : t := mk (x v) a (z v).
Definition set_z (v : t) (a : Q) : t := mk (x v) (y v) a.
End Vector3.

(** ** The block store: the [blocks] state cell of [Minecraft] *)

(** [b.x === px && b.y === py && b.z === pz] *)
Definition at_position (px py pz : Q) (b : Block) : bool :=
  Qeq_bool (x b) px && Qeq_bool (y b) py && Qeq_bool (z b) pz.

(** [handleBlockRemove]: the updater handed to [setBlocks]. *)
Definition handleBlockRemove (block : Block) (prev : list Block) : list Block :=
  filter (fun b => negb (at_position (x block) (y block) (z block) b)) prev.

(** [handleBlockAdd].  [blocks] is the state of the render that created the
    handler (the occupancy test reads it); [prev] is the state the updater
    is applied to. *)
Definition handleBlockAdd (blocks : list Block) (px py pz : Q) (ty : BlockType)
    (prev : list Block) : list Block :=
  let exists_ := existsb (at_position px py pz) blocks in
  if negb exists_ then prev ++ [mkBlock px py pz ty] else prev.

(** The store invariant: no two entries of the array share a coordinate. *)
Fixpoint unique_coordinates (bs : list Block) : bool :=
  match bs with
  | [] => true
  | b :: rest =>
      if existsb (at_position (x b) (y b) (z b)) rest then false
      else unique_coordinates rest
  end.

(** Some block of the array lies at the coordinate. *)
Definition occupied (blocks : list Block) (px py pz : Q) : Prop :=
  exists b, In b blocks /\ x b == px /\ y b == py /\ z b == pz.

(** The operations a session applies to the store after generation. *)
Inductive StoreOp : Set :=
| OpAdd (px py pz : Q) (ty : BlockType)
| OpRemove (block : Block).

(** One operation, issued by a handler of the current render. *)
Definition apply_op (op : StoreOp) (blocks : list Block) : list Block :=
  match op with
  | OpAdd px py pz ty => handleBlockAdd blocks px py pz ty blocks
  | OpRemove block => handleBlockRemove block blocks
  end.

Definition apply_ops (ops : list StoreOp) (blocks : list Block) : list Block :=
  fold_left (fun bs op => apply_op op bs) ops blocks.

(** ** Visibility: [visibleBlocks] *)

Definition squared_distance (block : Block) (playerPos : Vector3.t) : Q :=
  (x block - Vector3.x playerPos) ^ 2 +
  (y block - Vector3.y playerPos) ^ 2 +
  (z block - Vector3.z playerPos) ^ 2.

(** The double nearest to an integer. *)
Definition float_of_Z (n : Z) : float :=
  SF2Prim (binary_normalize prec emax n 0 false).

(** The double in which a number is held: the quotient, rounded to nearest,
    of numerator and denominator.  It is the number itself when the number
    is a double, and the double a decimal literal denotes otherwise. *)
Definition number (q : Q) : float :=
  (float_of_Z (Qnum q) / float_of_Z (Zpos (Qden q)))%float.

(** The rational a finite double is. *)
Definition rational (f : float) : Q :=
  match Prim2SF f with
  | S754_finite s m e => (if s then -1 else 1) * inject_Z (Zpos m) * 2 ^ e
  | _ => 0
  end.

(** [Math.pow(v, 2)]: for the exponent 2 the engine returns [v * v]. *)
Definition Math_pow_2 (v : float) : float := (v * v)%float.

(** [Math.sqrt(Math.pow(..., 2) + Math.pow(..., 2) + Math.pow(..., 2))],
    every operation rounded to the nearest double. *)
Definition distance (block : Block) (playerPos : Vector3.t) : float :=
  PrimFloat.sqrt
    (Math_pow_2 (number (x block) - number (Vector3.x playerPos)) +
     Math_pow_2 (number (y block) - number (Vector3.y playerPos)) +
     Math_pow_2 (number (z block) - number (Vector3.z playerPos)))%float.

Definition visibleBlocks (blocks : list Block) (playerPos : Vector3.t) : list Block :=
  filter (fun block =>
            (distance block playerPos <? number RENDER_DISTANCE)%float) blocks.

(** The exact test: the Euclidean distance of the two points, as rationals,
    is below [RENDER_DISTANCE] (compared on the squares). *)
Definition within_render_distance (playerPos : Vector3.t) (block : Block) : bool :=
  negb (Qle_bool (RENDER_DISTANCE ^ 2) (squared_distance block playerPos)).

(** ** The player: [PlayerController] *)

(** The [keys] ref: five latches written by the key handlers. *)
Module Keys.
Record t : Set := mk
  { forward : bool; backward : bool; left : bool; right : bool; jump : bool }.
End Keys.

Definition Qlt_bool (a b : Q) : bool := negb (Qle_bool b a).

(** Lines 147-152 of [useFrame]: [direction.set(0, 0, 0)] followed by the
    four conditional assignments, before [normalize]. *)
Definition intent (keys : Keys.t) : Vector3.t :=
  let direction := Vector3.mk 0 0 0 in
  let direction := if Keys.forward keys then Vector3.set_z direction (-1) else direction in
  let direction := if Keys.backward keys then Vector3.set_z direction 1 else direction in
  let direction := if Keys.left keys then Vector3.set_x direction (-1) else direction in
  let direction := if Keys.right keys then Vector3.set_x direction 1 else direction in
  direction.

Section PlayerController.
(** [three.js]: the type of [camera.rotation], [Vector3.normalize] and
    [Vector3.applyEuler]. *)
Variable Euler : Type.
Variable normalize : Vector3.t -> Vector3.t.
Variable applyEuler : Vector3.t -> Euler -> Vector3.t.

Record Camera : Type := mkCamera { position : Vector3.t; rotation : Euler }.

(** What a frame reads and writes: the camera, the [velocity] ref and the
    [keys] ref.  The block store is not part of it. *)
Record Player : Type := mkPlayer
  { camera : Camera; velocity : Vector3.t; keys : Keys.t }.

(** Lines 146-167: from [direction.current.set] to
    [camera.position.add(velocity.current)]. *)
Definition integrate (delta : Q) (s : Player) : Player :=
  let speed := 5 in
  let direction := intent (keys s) in
  let direction := normalize direction in
  let direction := applyEuler direction (rotation (camera s)) in
  let direction := Vector3.set_y direction 0 in
  let velocity := Vector3.set_x (velocity s) (Vector3.x direction * speed * delta) in
  let velocity := Vector3.set_z velocity (Vector3.z direction * speed * delta) in
  let velocity :=
    if Keys.jump (keys s) && Qle_bool (Vector3.y (position (camera s))) 5
    then Vector3.set_y velocity 0.2 else velocity in
  let velocity := Vector3.set_y velocity (Vector3.y velocity - 9.8 * delta * 0.1) in
  mkPlayer (mkCamera (Vector3.add (position (camera s)) velocity) (rotation (camera s)))
           velocity (keys s).

(** Lines 169-172: the ground constraint. *)
Definition ground_constraint (s : Player) : Player :=
  if Qlt_bool (Vector3.y (position (camera s))) 5
  then mkPlayer (mkCamera (Vector3.set_y (position (camera s)) 5) (rotation (camera s)))
                (Vector3.set_y (velocity s) 0) (keys s)
  else s.

(** The callback given to [useFrame]: one tick. *)
Definition useFrame (delta : Q) (s : Player) : Player :=
  ground_constraint (integrate delta s).

(** The argument of [onMove]: [camera.position.clone()]. *)
Definition onMove_arg (s : Player) : Vector3.t := position (camera s).
End PlayerController.

Arguments position {Euler} _.
Arguments rotation {Euler} _.
Arguments camera {Euler} _.
Arguments velocity {Euler} _.
Arguments keys {Euler} _.
Arguments mkCamera {Euler} _ _.
Arguments mkPlayer {Euler} _ _ _.
Arguments integrate {Euler} _ _ _ _.
Arguments useFrame {Euler} _ _ _ _.
Arguments ground_constraint {Euler} _.
Arguments onMove_arg {Euler} _.

(** ** Selection: the [selectedBlock] state cell and the hotbar *)

(** [Object.keys(BLOCK_TYPES)], in insertion order. *)
Definition blockTypes : list BlockType :=
  [grass; dirt; stone; wood; leaves; planks; bricks; glass; wool; flower; torch; stairs].

(** [blockTypes.slice(0, 9)] *)
Definition hotbar : list BlockType := firstn 9 blockTypes.

(** [setSelectedBlock(type)]: the state setter overwrites the cell. *)
Definition setSelectedBlock (ty : BlockType) (selectedBlock : BlockType) : BlockType := ty.

(** [String(n)] for a natural number. *)
Definition String_of_nat (n : nat) : string := NilEmpty.string_of_uint (Nat.to_uint n).

(** The two events a hotbar button handles. *)
Inductive ButtonEvent : Set :=
| Click
| KeyDown (key : string).

(** The handlers of the button rendered for [type] at index [i] of the
    hotbar ([onClick] and [onKeyDown]). *)
Definition button (i : nat) (ty : BlockType) (e : ButtonEvent)
    (selectedBlock : BlockType) : BlockType :=
  match e with
  | Click => setSelectedBlock ty selectedBlock
  | KeyDown key =>
      if String.eqb key (String_of_nat (i + 1))
      then setSelectedBlock ty selectedBlock
      else selectedBlock
  end.

(** The buttons that exist: [hotbar.map((type, i) => <button .../>)]. *)
Definition buttons : list (nat * BlockType) := combine (seq 0 (List.length hotbar)) hotbar.

(** ** World generation: [generateWorld] *)

(** A step of [generateWorld] reads how many [Math.random] draws were made so
    far and yields its value, the blocks it pushed onto [blocks], in order,
    and the new number of draws. *)
Definition Gen (A : Type) : Type := nat -> A * list Block * nat.

Definition ret {A : Type} (a : A) : Gen A := fun n => (a, [], n).

Definition bind {A B : Type} (c : Gen A) (k : A -> Gen B) : Gen B :=
  fun n =>
    let '(a, out1, n1) := c n in
    let '(b, out2, n2) := k a n1 in
    (b, out1 ++ out2, n2).

Declare Scope gen_scope.
Delimit Scope gen_scope with gen.
Notation "v <- c ;; k" := (bind c (fun v => k))
  (at level 61, c at next level, right associativity) : gen_scope.
Notation "c ;; k" := (bind c (fun _ => k))
  (at level 61, right associativity) : gen_scope.

(** [blocks.push(b)] *)
Definition push (b : Block) : Gen unit := fun n => (tt, [b], n).

(** [if (c) { body }] *)
Definition when (c : bool) (body : Gen unit) : Gen unit :=
  if c then body else ret tt.

(** The blocks a step pushes, and the draws it leaves behind. *)
Definition pushed {A : Type} (c : Gen A) (n : nat) : list Block := snd (fst (c n)).
Definition draws {A : Type} (c : Gen A) (n : nat) : nat := snd (c n).

(** [count] iterations of a counting loop that starts at [i]. *)
Fixpoint for_ (i : Z) (count : nat) (body : Z -> Gen unit) : Gen unit :=
  match count with
  | O => ret tt
  | S c => bind (body i) (fun _ => for_ (i + 1) c body)
  end.

(** [for (let i = lo; i < hi; i++) body]; the loops with [i <= hi] are
    [for_range lo (hi + 1)]. *)
Definition for_range (lo hi : Z) (body : Z -> Gen unit) : Gen unit :=
  for_ lo (Z.to_nat (hi - lo)) body.

Section WorldGenerator.
(** The function returned by [createNoise2D()], and the successive results
    of [Math.random()] in [generateWorld]. *)
Variable noise2D : Q -> Q -> Q.
Variable random : nat -> Q.

Local Open Scope gen_scope.

Definition Math_random : Gen Q := fun n => (random n, [], S n).

(** Line 207: [Math.floor(noise2D(x * 0.1, z * 0.1) * 4 + 3)] *)
Definition column_height (cx cz : Z) : Z :=
  Qfloor (noise2D (inject_Z cx * 0.1) (inject_Z cz * 0.1) * 4 + 3).

(** Lines 209-219: the terrain loop. *)
Definition emit_terrain (cx cz height : Z) : Gen unit :=
  for_range 0 (height + 1) (fun cy =>
    let ty := stone in
    let ty :=
      if (cy =? height)%Z then grass
      else if (cy >=? height - 2)%Z then dirt
      else ty in
    push (mkBlock (inject_Z cx) (inject_Z cy) (inject_Z cz) ty)).

(** Lines 221-223: the flower. *)
Definition emit_flower (cx cz height : Z) : Gen unit :=
  r <- Math_random ;;
  when (Qlt_bool 0.95 r && (height >? 2)%Z)
    (push (mkBlock (inject_Z cx) (inject_Z (height + 1)) (inject_Z cz) flower)).

(** Lines 225-243: the tree, a trunk and a canopy. *)
Definition emit_tree (cx cz height : Z) : Gen unit :=
  r <- Math_random ;;
  when (Qlt_bool 0.98 r && (height >? 2)%Z)
    (for_range (height + 1) (height + 5) (fun ty =>
       push (mkBlock (inject_Z cx) (inject_Z ty) (inject_Z cz) wood)) ;;
     for_range (-2) (2 + 1) (fun lx =>
       for_range (-2) (2 + 1) (fun lz =>
         for_range 0 2 (fun ly =>
           when (Z.abs lx + Z.abs lz <? 4)%Z
             (push (mkBlock (inject_Z (cx + lx)) (inject_Z (height + 4 + ly))
                            (inject_Z (cz + lz)) leaves)))))).

(** Lines 207-243: the body of the two outer loops. *)
Definition column (cx cz : Z) : Gen unit :=
  let height := column_height cx cz in
  emit_terrain cx cz height ;;
  emit_flower cx cz height ;;
  emit_tree cx cz height.

Definition generateWorld_loops : Gen unit :=
  for_range (- WORLD_SIZE) WORLD_SIZE (fun cx =>
    for_range (- WORLD_SIZE) WORLD_SIZE (fun cz =>
      column cx cz)).

(** [generateWorld()]: the array [blocks] when the loops are over. *)
Definition generateWorld : list Block := pushed generateWorld_loops 0%nat.
End WorldGenerator.

(** The classification of a terrain block as the specification words it:
    grass at the top, dirt for the two levels below it, stone otherwise. *)
Definition terrain_type_spec (height cy : Z) : BlockType :=
  if (cy =? height)%Z then grass
  else if ((height - 2 <=? cy) && (cy <? height))%Z then dirt
  else stone.

(** [n] consecutive integers from [lo]. *)
Fixpoint Zseq (lo : Z) (n : nat) : list Z :=
  match n with
  | O => []
  | S k => lo :: Zseq (lo + 1) k
  end.

(** A step that makes no draw and pushes [out] whatever came before. *)
Definition emits (c : Gen unit) (out : list Block) : Prop :=
  forall n, c n = (tt, out, n).

(** The block the terrain loop pushes at level [cy], as the specification
    words it. *)
Definition terrain_block_spec (cx cz height cy : Z) : Block :=
  mkBlock (inject_Z cx) (inject_Z cy) (inject_Z cz) (terrain_type_spec height cy).

(** The types the terrain loop can push. *)
Definition is_terrain_type (ty : BlockType) : bool :=
  match ty with
  | grass | dirt | stone => true
  | _ => false
  end.

(** What the loops of the tree push when they run: the four trunk blocks,
    then the canopy in the order of its three loops. *)
Definition trunk_blocks (cx cz height : Z) : list Block :=
  map (fun ty => mkBlock (inject_Z cx) (inject_Z ty) (inject_Z cz) wood)
      (Zseq (height + 1) 4).

Definition canopy_blocks (cx cz height : Z) : list Block :=
  flat_map (fun lx =>
    flat_map (fun lz =>
      flat_map (fun ly =>
        if (Z.abs lx + Z.abs lz <? 4)%Z
        then [mkBlock (inject_Z (cx + lx)) (inject_Z (height + 4 + ly))
                      (inject_Z (cz + lz)) leaves]
        else [])
      (Zseq 0 2))
    (Zseq (-2) 5))
  (Zseq (-2) 5).

(** The blocks of an array that lie at level [cy]. *)
Definition at_level (cy : Z) (bs : list Block) : list Block :=
  filter (fun b => Qeq_bool (y b) (inject_Z cy)) bs.

(** The position of column [(cx, cz)] in the order of the two outer loops. *)
Definition column_index (cx cz : Z) : nat :=
  Z.to_nat ((cx + WORLD_SIZE) * (2 * WORLD_SIZE) + (cz + WORLD_SIZE)).

(** Two inputs used in the examples: a flat noise field (height 3 in every
    column), and a sequence of draws that grows one tree, in column (0, 0),
    and no flower. *)
Definition flat_noise : Q -> Q -> Q := fun _ _ => 0.
Definition one_tree_draws : nat -> Q :=
  fun n => if Nat.eqb n (2 * column_index 0 0 + 1) then 0.99 else 0.

(** A noise field that is flat but for the value -0.8 it has for column
    (5, 7), and draws that grow nothing. *)
Definition pit_noise : Q -> Q -> Q :=
  fun a b => if Qeq_bool a 0.5 && Qeq_bool b 0.7 then -0.8 else 0.
Definition no_draws : nat -> Q := fun _ => 0.

(** Inputs of the examples: the keys [W] and [S] held together, the keys
    [A] and [D] held together; a viewer at the origin and three blocks on
    the axes, at distances 7.9, 8 and 8.1 from it. *)
Definition keys_forward_backward : Keys.t := Keys.mk true true false false false.
Definition keys_left_right : Keys.t := Keys.mk false false true true false.

(** A block and a player position, every coordinate a double, whose exact
    distance is a little below 8. *)
Definition rounding_block : Block := mkBlock 3 5 (-2) stone.
Definition rounding_player : Vector3.t :=
  Vector3.mk (rational (number 0.76)) 5 (rational (number 5.68)).

Definition origin : Vector3.t := Vector3.mk 0 0 0.
Definition near_block : Block := mkBlock 7.9 0 0 stone.
Definition edge_block : Block := mkBlock 0 8 0 stone.
Definition far_block : Block := mkBlock 0 0 8.1 stone.

(** A camera without rotation: [normalize] leaves an axis vector as it is
    and the rotation is the identity.  A player standing at [y = 5] with no
    velocity, with the jump key held and with no key held. *)
Definition normalize_axis : Vector3.t -> Vector3.t := fun v => v.
Definition applyEuler_identity : Vector3.t -> unit -> Vector3.t := fun v _ => v.

Definition jumping_player : Player unit :=
  mkPlayer (mkCamera (Vector3.mk 0 5 10) tt) (Vector3.mk 0 0 0)
           (Keys.mk false false false false true).

Definition standing_player : Player unit :=
  mkPlayer (mkCamera (Vector3.mk 0 5 10) tt) (Vector3.mk 0 0 0)
           (Keys.mk false false false false false).

(** ** Keyboard latches: [handleKeyDown] and [handleKeyUp] *)

(** The [switch (e.code)] of [handleKeyDown]. *)
Definition handleKeyDown (code : string) (k : Keys.t) : Keys.t :=
  if String.eqb code "KeyW" then
    Keys.mk true (Keys.backward k) (Keys.left k) (Keys.right k) (Keys.jump k)
  else if String.eqb code "KeyS" then
    Keys.mk (Keys.forward k) true (Keys.left k) (Keys.right k) (Keys.jump k)
  else if String.eqb code "KeyA" then
    Keys.mk (Keys.forward k) (Keys.backward k) true (Keys.right k) (Keys.jump k)
  else if String.eqb code "KeyD" then
    Keys.mk (Keys.forward k) (Keys.backward k) (Keys.left k) true (Keys.jump k)
  else if String.eqb code "Space" then
    Keys.mk (Keys.forward k) (Keys.backward k) (Keys.left k) (Keys.right k) true
  else k.

(** The [switch (e.code)] of [handleKeyUp]. *)
Definition handleKeyUp (code : string) (k : Keys.t) : Keys.t :=
  if String.eqb code "KeyW" then
    Keys.mk false (Keys.backward k) (Keys.left k) (Keys.right k) (Keys.jump k)
  else if String.eqb code "KeyS" then
    Keys.mk (Keys.forward k) false (Keys.left k) (Keys.right k) (Keys.jump k)
  else if String.eqb code "KeyA" then
    Keys.mk (Keys.forward k) (Keys.backward k) false (Keys.right k) (Keys.jump k)
  else if String.eqb code "KeyD" then
    Keys.mk (Keys.forward k) (Keys.backward k) (Keys.left k) false (Keys.jump k)
  else if String.eqb code "Space" then
    Keys.mk (Keys.forward k) (Keys.backward k) (Keys.left k) (Keys.right k) false
  else k.

(** The codes the two handlers have a case for. *)
Definition bound_codes : list string := ["KeyW"; "KeyS"; "KeyA"; "KeyD"; "Space"]%string.

(** The latch a key code stands for, read in a record of latches; nothing
    for a code that stands for none. *)
Definition latch (code : string) (k : Keys.t) : option bool :=
  if String.eqb code "KeyW" then Some (Keys.forward k)
  else if String.eqb code "KeyS" then Some (Keys.backward k)
  else if String.eqb code "KeyA" then Some (Keys.left k)
  else if String.eqb code "KeyD" then Some (Keys.right k)
  else if String.eqb code "Space" then Some (Keys.jump k)
  else None.

(** What happens to a player between two renders: a key goes down, a key
    goes up, or a frame of [delta] seconds is drawn. *)
Inductive PlayerEvent : Set :=
| key_down (code : string)
| key_up (code : string)
| frame (delta : Q).

Section PlayerRun.
Variable Euler : Type.
Variable normalize : Vector3.t -> Vector3.t.
Variable applyEuler : Vector3.t -> Euler -> Vector3.t.

Definition player_step (s : Player Euler) (ev : PlayerEvent) : Player Euler :=
  match ev with
  | key_down code => mkPlayer (camera s) (velocity s) (handleKeyDown code (keys s))
  | key_up code => mkPlayer (camera s) (velocity s) (handleKeyUp code (keys s))
  | frame delta => useFrame normalize applyEuler delta s
  end.

Definition player_run (evs : list PlayerEvent) (s : Player Euler) : Player Euler :=
  fold_left player_step evs s.
End PlayerRun.

Arguments player_step {Euler} _ _ _ _.
Arguments player_run {Euler} _ _ _ _.

(** An event list in which the jump key never goes down and no frame has a
    negative [delta]. *)
Definition calm_event (ev : PlayerEvent) : bool :=
  match ev with
  | key_down code => negb (String.eqb code "Space")
  | key_up _ => true
  | frame delta => Qle_bool 0 delta
  end.

(** ** Clicks on the world: [handleClick] of [WorldTerrain] *)

(** What [handleClick] reads of the result of [raycaster.intersectObjects]:
    the entries and, of the first one, the [face] (which may be missing)
    and its [normal]. *)
Record Face : Set := mkFace { normal : Vector3.t }.
Record Intersection : Set := mkIntersection { face : option Face }.

(** [Math.round]: the nearest integer, halves going up. *)
Definition Math_round (q : Q) : Q := inject_Z (Qfloor (q + (1 # 2))).

(** [(window as any).selectedBlockType || 'grass'], the global being unset
    ([None]) or a type name. *)
Definition selectedType_or_grass (window_selectedBlockType : option BlockType) : BlockType :=
  match window_selectedBlockType with
  | Some ty => ty
  | None => grass
  end.

(** How a call of [raycaster.intersectObjects] ends. *)
Inductive Raycast : Set :=
| TypeError
| Intersections (found : list Intersection).

(** [raycaster.intersectObjects(objects)] on [Block] records.  [three.js]
    tests every entry with [object.layers.test(raycaster.layers)]; a
    [Block] record has no [layers], and reading a property of [undefined]
    throws.  With no entry the result is the empty array. *)
Definition intersectObjects (objects : list Block) : Raycast :=
  match objects with
  | [] => Intersections []
  | _ :: _ => TypeError
  end.

(** [Boolean(b)] for an object [b]. *)
Definition Boolean (b : Block) : bool := true.

(** Lines 51-68: what [handleClick] does with the intersections, namely the
    call it makes, [onBlockRemove(block)] or
    [onBlockAdd(newX, newY, newZ, selectedType)], if it makes one. *)
Definition handleClick_intersects (block : Block) (intersects : list Intersection)
    (event_button : Z) (window_selectedBlockType : option BlockType) : option StoreOp :=
  match intersects with
  | [] => None
  | first :: _ =>
      if (event_button =? 0)%Z then Some (OpRemove block)
      else if (event_button =? 2)%Z then
        match face first with
        | Some f =>
            let newX := Math_round (x block + Vector3.x (normal f)) in
            let newY := Math_round (y block + Vector3.y (normal f)) in
            let newZ := Math_round (z block + Vector3.z (normal f)) in
            let selectedType := selectedType_or_grass window_selectedBlockType in
            Some (OpAdd newX newY newZ selectedType)
        | None => None
        end
      else None
  end.

(** How a call of [handleClick] ends: it returns, having made at most one
    call of [onBlockRemove] or [onBlockAdd], or it throws. *)
Inductive ClickOutcome : Set :=
| Returned (call : option StoreOp)
| Thrown.

(** [handleClick], with [blocks] the property of [WorldTerrain]. *)
Definition handleClick (hoveredBlock : option Block) (blocks : list Block)
    (event_button : Z) (window_selectedBlockType : option BlockType) : ClickOutcome :=
  match hoveredBlock with
  | None => Returned None
  | Some block =>
      match intersectObjects (filter Boolean (map (fun b => b) blocks)) with
      | TypeError => Thrown
      | Intersections intersects =>
          Returned (handleClick_intersects block intersects event_button
                      window_selectedBlockType)
      end
  end.

(** A block whose three coordinates are integers. *)
Definition integer_block (b : Block) : Prop :=
  exists bx by_ bz : Z, x b == inject_Z bx /\ y b == inject_Z by_ /\ z b == inject_Z bz.

(** ** A session of [Minecraft]: the state cells and the events *)

Definition BlockType_eqb (a b : BlockType) : bool :=
  match a, b with
  | grass, grass | dirt, dirt | stone, stone | wood, wood
  | leaves, leaves | planks, planks | bricks, bricks | glass, glass
  | wool, wool | flower, flower | torch, torch | stairs, stairs => true
  | _, _ => false
  end.

Module Session.
(** The cells [blocks] and [selectedBlock], and the global
    [window.selectedBlockType]. *)
Record t : Set := mk
  { blocks : list Block;
    selectedBlock : BlockType;
    window_selectedBlockType : option BlockType }.
End Session.

(** The events that change these cells: an event on the [i]-th hotbar
    button, and a mouse button going down, with the hovered block and the
    player position of the current render. *)
Inductive SessionEvent : Set :=
| HotbarButton (i : nat) (e : ButtonEvent)
| MouseDown (hoveredBlock : option Block) (playerPos : Vector3.t)
            (event_button : Z).

(** The two effects of the first render: the world is generated, and the
    global is set to ['grass']. *)
Definition session_mount (world : list Block) : Session.t :=
  Session.mk world grass (Some grass).

(** One event.  A hotbar event runs the handlers of the button it is
    delivered to, then the effect that copies [selectedBlock] into the
    global when it has changed; there is no handler where no button is
    rendered.  A mouse event runs [handleClick] on the visible blocks, which
    are the [blocks] property of [WorldTerrain], and the store operation it
    asks for; an exception thrown in the listener leaves the cells as they
    are. *)
Definition session_step (s : Session.t) (ev : SessionEvent) : Session.t :=
  match ev with
  | HotbarButton i e =>
      match nth_error hotbar i with
      | Some ty =>
          let selected := button i ty e (Session.selectedBlock s) in
          Session.mk (Session.blocks s) selected
            (if BlockType_eqb selected (Session.selectedBlock s)
             then Session.window_selectedBlockType s
             else Some selected)
      | None => s
      end
  | MouseDown hoveredBlock playerPos event_button =>
      match handleClick hoveredBlock (visibleBlocks (Session.blocks s) playerPos)
                        event_button (Session.window_selectedBlockType s) with
      | Returned (Some op) =>
          Session.mk (apply_op op (Session.blocks s)) (Session.selectedBlock s)
                     (Session.window_selectedBlockType s)
      | Returned None => s
      | Thrown => s
      end
  end.

Definition session_run (evs : list SessionEvent) (s : Session.t) : Session.t :=
  fold_left session_step evs s.

(** The position of a type in a list of types, if it is there. *)
Fixpoint index_of (ty : BlockType) (l : list BlockType) : option nat :=
  match l with
  | [] => None
  | t :: rest =>
      if BlockType_eqb t ty then Some 0%nat else option_map S (index_of ty rest)
  end.

(** The selection command for a type: a click on the hotbar button that
    shows the type.  A type that no button shows cannot be clicked, and the
    command does nothing. *)
Definition selectType (ty : BlockType) (s : Session.t) : Session.t :=
  match index_of ty hotbar with
  | Some i => session_step s (HotbarButton i Click)
  | None => s
  end.

(** The types the generator pushes. *)
Definition is_generated_type (ty : BlockType) : bool :=
  match ty with
  | grass | dirt | stone | flower | wood | leaves => true
  | _ => false
  end.

(** The condition under which column [(cx, cz)] of a run grows a tree. *)
Definition grows_tree (noise2D : Q -> Q -> Q) (random : nat -> Q) (cx cz : Z) : bool :=
  Qlt_bool 0.98 (random (2 * column_index cx cz + 1)%nat) &&
  (column_height noise2D cx cz >? 2)%Z.

(** What every session keeps: the selection is a hotbar type, the global
    holds the selection, and every block of the store has integer
    coordinates and a type other than [torch] and [stairs]. *)
Definition session_invariant (s : Session.t) : Prop :=
  In (Session.selectedBlock s) hotbar /\
  Session.window_selectedBlockType s = Some (Session.selectedBlock s) /\
  forall b, In b (Session.blocks s) ->
            integer_block b /\ type b <> torch /\ type b <> stairs.

(** * Properties *)

(** ** The block store *)

Lemma at_position_spec (px py pz : Q) (b : Block) :
  at_position px py pz b = true <-> x b == px /\ y b == py /\ z b == pz.
Proof.
  unfold at_position. rewrite !andb_true_iff, !Qeq_bool_iff. tauto.
Qed.

Lemma at_position_sym (b c : Block) :
  at_position (x b) (y b) (z b) c = at_position (x c) (y c) (z c) b.
Proof.
  apply eq_true_iff_eq. rewrite !at_position_spec.
  split; intros (Hx & Hy & Hz); repeat split; symmetry; assumption.
Qed.

Lemma occupied_existsb (blocks : list Block) (px py pz : Q) :
  occupied blocks px py pz <-> existsb (at_position px py pz) blocks = true.
Proof.
  unfold occupied. rewrite existsb_exists.
  split; intros (b & Hin & H); exists b; split; trivial;
    apply at_position_spec; assumption.
Qed.

Lemma not_occupied_existsb (blocks : list Block) (px py pz : Q) :
  ~ occupied blocks px py pz <-> existsb (at_position px py pz) blocks = false.
Proof.
  rewrite occupied_existsb. destruct (existsb _ blocks); split; congruence.
Qed.

Lemma existsb_filter_false {A : Type} (f g : A -> bool) (l : list A) :
  existsb f l = false -> existsb f (filter g l) = false.
Proof.
  induction l as [|a l IH]; simpl; trivial.
  intros H. apply orb_false_iff in H. destruct H as [Ha Hl].
  destruct (g a); simpl; [rewrite Ha|]; auto.
Qed.

(** The boolean invariant says what it should: two entries at the same
    coordinate are one entry. *)
Lemma unique_coordinates_spec (bs : list Block) :
  unique_coordinates bs = true <->
  forall i j b c,
    nth_error bs i = Some b -> nth_error bs j = Some c ->
    at_position (x b) (y b) (z b) c = true -> i = j.
Proof.
  induction bs as [|a rest IH]; simpl.
  - split; trivial. intros _ [|i] j b c; discriminate.
  - destruct (existsb (at_position (x a) (y a) (z a)) rest) eqn:E.
    + split; [discriminate|]. intros H. exfalso.
      apply existsb_exists in E. destruct E as (c & Hin & Hc).
      apply In_nth_error in Hin. destruct Hin as [j Hj].
      specialize (H 0%nat (S j) a c eq_refl Hj Hc). discriminate.
    + rewrite IH. split.
      * intros H [|i] [|j] b c Hb Hc Hbc; simpl in *; trivial.
        -- injection Hb as <-. apply nth_error_In in Hc.
           assert (existsb (at_position (x a) (y a) (z a)) rest = true)
             by (apply existsb_exists; eauto).
           congruence.
        -- injection Hc as <-. apply nth_error_In in Hb.
           rewrite at_position_sym in Hbc.
           assert (existsb (at_position (x a) (y a) (z a)) rest = true)
             by (apply existsb_exists; eauto).
           congruence.
        -- f_equal. eapply H; eauto.
      * intros H i j b c Hb Hc Hbc.
        specialize (H (S i) (S j) b c Hb Hc Hbc). congruence.
Qed.

Lemma unique_coordinates_remove (block : Block) (prev : list Block) :
  unique_coordinates prev = true ->
  unique_coordinates (handleBlockRemove block prev) = true.
Proof.
  unfold handleBlockRemove. induction prev as [|a rest IH]; simpl; trivial.
  destruct (existsb (at_position (x a) (y a) (z a)) rest) eqn:E; [discriminate|].
  intros H. destruct (negb (at_position (x block) (y block) (z block) a)); simpl; auto.
  rewrite existsb_filter_false; auto.
Qed.

Lemma unique_coordinates_push (bs : list Block) (px py pz : Q) (ty : BlockType) :
  unique_coordinates bs = true ->
  existsb (at_position px py pz) bs = false ->
  unique_coordinates (bs ++ [mkBlock px py pz ty]) = true.
Proof.
  induction bs as [|a rest IH]; simpl; trivial.
  destruct (existsb (at_position (x a) (y a) (z a)) rest) eqn:E; [discriminate|].
  intros H Hfree. apply orb_false_iff in Hfree. destruct Hfree as [Ha Hrest].
  rewrite existsb_app, E. simpl.
  rewrite (at_position_sym a (mkBlock px py pz ty)). simpl.
  rewrite Ha. simpl. auto.
Qed.

Lemma unique_coordinates_add (blocks : list Block) (px py pz : Q) (ty : BlockType) :
  unique_coordinates blocks = true ->
  unique_coordinates (handleBlockAdd blocks px py pz ty blocks) = true.
Proof.
  intros H. unfold handleBlockAdd.
  destruct (existsb (at_position px py pz) blocks) eqn:E; simpl; trivial.
  apply unique_coordinates_push; assumption.
Qed.

Lemma unique_coordinates_apply_ops (ops : list StoreOp) (blocks : list Block) :
  unique_coordinates blocks = true ->
  unique_coordinates (apply_ops ops blocks) = true.
Proof.
  unfold apply_ops. revert blocks.
  induction ops as [|op ops IH]; simpl; trivial.
  intros blocks H. apply IH. destruct op; simpl.
  - apply unique_coordinates_add; assumption.
  - apply unique_coordinates_remove; assumption.
Qed.

Lemma unique_coordinates_app_r (l1 l2 : list Block) :
  unique_coordinates (l1 ++ l2) = true -> unique_coordinates l2 = true.
Proof.
  induction l1 as [|a l1 IH]; simpl; trivial.
  destruct (existsb _ (l1 ++ l2)); [discriminate|]. exact IH.
Qed.

Lemma unique_coordinates_app_l (l1 l2 : list Block) :
  unique_coordinates (l1 ++ l2) = true -> unique_coordinates l1 = true.
Proof.
  induction l1 as [|a l1 IH]; simpl; trivial.
  rewrite existsb_app.
  destruct (existsb _ l1); simpl; [discriminate|].
  destruct (existsb _ l2); [discriminate|]. exact IH.
Qed.

(** With the handler of the current render (the array it tests is the
    array the update is applied to), an addition on an occupied coordinate
    returns the array it was given and an addition on a free coordinate
    appends exactly the one block [(p, T)]. *)
Theorem handleBlockAdd_occupied_or_free
    (blocks : list Block) (px py pz : Q) (ty : BlockType) :
  (occupied blocks px py pz ->
     handleBlockAdd blocks px py pz ty blocks = blocks) /\
  (~ occupied blocks px py pz ->
     handleBlockAdd blocks px py pz ty blocks = blocks ++ [mkBlock px py pz ty] /\
     List.length (handleBlockAdd blocks px py pz ty blocks) = S (List.length blocks)).
Proof.
  unfold handleBlockAdd. split.
  - intros H. apply occupied_existsb in H. rewrite H. reflexivity.
  - intros H. apply not_occupied_existsb in H. rewrite H. simpl.
    split; trivial. rewrite length_app. simpl. lia.
Qed.

Lemma handleBlockAdd_occupied_or_free_witness :
  handleBlockAdd [mkBlock 1 2 3 grass] 1 2 3 stone [mkBlock 1 2 3 grass]
    = [mkBlock 1 2 3 grass] /\
  handleBlockAdd [mkBlock 1 2 3 grass] 1 3 3 stone [mkBlock 1 2 3 grass]
    = [mkBlock 1 2 3 grass; mkBlock 1 3 3 stone].
Proof.
  split.
  - apply (proj1 (handleBlockAdd_occupied_or_free [mkBlock 1 2 3 grass] 1 2 3 stone)).
    exists (mkBlock 1 2 3 grass). simpl. repeat split; auto.
  - apply (proj2 (handleBlockAdd_occupied_or_free [mkBlock 1 2 3 grass] 1 3 3 stone)).
    intros (b & [<- | []] & _ & Hy & _). simpl in Hy. discriminate Hy.
Defined.



(** C6.  [remove(p)] keeps a block exactly when it is not at [p]; it treats
    every entry on its own and keeps the order of those it keeps; with no
    block at [p] the array is returned as it was. *)
Theorem handleBlockRemove_exact (block : Block) (prev : list Block) :
  (forall b, In b (handleBlockRemove block prev) <->
             In b prev /\ ~ (x b == x block /\ y b == y block /\ z b == z block)) /\
  (forall l1 b l2, prev = l1 ++ b :: l2 ->
     handleBlockRemove block prev =
       handleBlockRemove block l1 ++
       (if at_position (x block) (y block) (z block) b then [] else [b]) ++
       handleBlockRemove block l2) /\
  (~ occupied prev (x block) (y block) (z block) ->
     handleBlockRemove block prev = prev).
Proof.
  unfold handleBlockRemove. split; [|split].
  - intros b. rewrite filter_In, negb_true_iff, <- at_position_spec.
    destruct (at_position _ _ _ b); intuition congruence.
  - intros l1 b l2 ->. rewrite filter_app. simpl.
    destruct (at_position _ _ _ b); reflexivity.
  - intros H. apply not_occupied_existsb in H.
    induction prev as [|a rest IH]; simpl in *; trivial.
    apply orb_false_iff in H. destruct H as [Ha Hrest].
    rewrite Ha. simpl. f_equal. auto.
Qed.

Lemma handleBlockRemove_exact_witness :
  handleBlockRemove (mkBlock 5 5 5 stone) [mkBlock 0 0 0 grass; mkBlock 1 0 0 dirt]
    = [mkBlock 0 0 0 grass; mkBlock 1 0 0 dirt] /\
  handleBlockRemove (mkBlock 1 0 0 stone) [mkBlock 0 0 0 grass; mkBlock 1 0 0 dirt]
    = [mkBlock 0 0 0 grass] ++ [] ++ [].
Proof.
  split.
  - apply (proj2 (proj2 (handleBlockRemove_exact (mkBlock 5 5 5 stone)
                 [mkBlock 0 0 0 grass; mkBlock 1 0 0 dirt]))).
    intros (b & [<- | [<- | []]] & Hx & _); simpl in Hx; discriminate Hx.
  - apply (proj1 (proj2 (handleBlockRemove_exact (mkBlock 1 0 0 stone)
                 [mkBlock 0 0 0 grass; mkBlock 1 0 0 dirt]))
             [mkBlock 0 0 0 grass] (mkBlock 1 0 0 dirt) []).
    reflexivity.
Defined.

(** ** Steps of the generator *)

Lemma Qlt_bool_iff (a b : Q) : Qlt_bool a b = true <-> a < b.
Proof.
  unfold Qlt_bool. rewrite negb_true_iff.
  split; intros H.
  - apply Qnot_le_lt. intros Hle. apply Qle_bool_iff in Hle. congruence.
  - destruct (Qle_bool b a) eqn:E; trivial.
    apply Qle_bool_iff in E. exfalso. exact (Qlt_not_le _ _ H E).
Qed.

Lemma pushed_bind {A B : Type} (c : Gen A) (k : A -> Gen B) (n : nat) :
  pushed (bind c k) n = pushed c n ++ pushed (k (fst (fst (c n)))) (draws c n).
Proof.
  unfold pushed, draws, bind.
  destruct (c n) as [[a out1] n1]. simpl.
  destruct (k a n1) as [[b out2] n2]. reflexivity.
Qed.

Lemma draws_bind {A B : Type} (c : Gen A) (k : A -> Gen B) (n : nat) :
  draws (bind c k) n = draws (k (fst (fst (c n)))) (draws c n).
Proof.
  unfold draws, bind.
  destruct (c n) as [[a out1] n1]. simpl.
  destruct (k a n1) as [[b out2] n2]. reflexivity.
Qed.

Lemma emits_pushed (c : Gen unit) (out : list Block) (n : nat) :
  emits c out -> pushed c n = out /\ draws c n = n.
Proof. intros H. unfold pushed, draws. rewrite H. auto. Qed.

Lemma emits_ret : emits (ret tt) [].
Proof. intros n. reflexivity. Qed.

Lemma emits_push (b : Block) : emits (push b) [b].
Proof. intros n. reflexivity. Qed.

Lemma emits_bind (c : Gen unit) (k : unit -> Gen unit) (o1 o2 : list Block) :
  emits c o1 -> emits (k tt) o2 -> emits (bind c k) (o1 ++ o2).
Proof.
  intros H1 H2 n. unfold bind. rewrite H1, H2. reflexivity.
Qed.

Lemma emits_when (c : bool) (body : Gen unit) (out : list Block) :
  emits body out -> emits (when c body) (if c then out else []).
Proof. destruct c; simpl; trivial. intros _. apply emits_ret. Qed.

Lemma emits_for_ (body : Z -> Gen unit) (f : Z -> list Block) :
  (forall i, emits (body i) (f i)) ->
  forall count i, emits (for_ i count body) (flat_map f (Zseq i count)).
Proof.
  intros H count. induction count as [|c IH]; intros i; simpl.
  - apply emits_ret.
  - apply emits_bind; auto.
Qed.

Lemma In_Zseq (n : nat) (lo v : Z) :
  In v (Zseq lo n) <-> (lo <= v < lo + Z.of_nat n)%Z.
Proof.
  revert lo. induction n as [|k IH]; intros lo; simpl Zseq.
  - simpl. lia.
  - simpl In. rewrite IH. lia.
Qed.

Lemma length_Zseq (n : nat) (lo : Z) : List.length (Zseq lo n) = n.
Proof. revert lo. induction n; intros lo; simpl; auto. Qed.

Lemma flat_map_singleton {A B : Type} (f : A -> B) (l : list A) :
  flat_map (fun a => [f a]) l = map f l.
Proof. induction l; simpl; congruence. Qed.

(** The loop of [for_] runs its [k]-th iteration between what came before
    and what comes after, on the draws the earlier iterations left. *)
Lemma pushed_for_split (body : Z -> Gen unit) (count : nat) :
  forall (k : nat) (i : Z) (n : nat), (k < count)%nat ->
  exists before after,
    pushed (for_ i count body) n =
    before ++ pushed (body (i + Z.of_nat k)%Z) (draws (for_ i k body) n) ++ after.
Proof.
  induction count as [|c IH]; intros k i n Hk; [lia|].
  simpl for_. rewrite pushed_bind.
  destruct k as [|k].
  - exists [], (pushed (for_ (i + 1) c body) (draws (body i) n)).
    simpl. rewrite Z.add_0_r. reflexivity.
  - destruct (IH k (i + 1)%Z (draws (body i) n)) as (b & a & E); [lia|].
    exists (pushed (body i) n ++ b), a.
    rewrite E. simpl for_. rewrite draws_bind.
    replace (i + Z.of_nat (S k))%Z with (i + 1 + Z.of_nat k)%Z by lia.
    rewrite <- app_assoc. reflexivity.
Qed.

Lemma draws_for_const (body : Z -> Gen unit) (d : nat) :
  (forall i n, draws (body i) n = (n + d)%nat) ->
  forall count i n, draws (for_ i count body) n = (n + count * d)%nat.
Proof.
  intros H count. induction count as [|c IH]; intros i n; simpl for_.
  - unfold draws, ret. simpl. lia.
  - rewrite draws_bind, IH, H. lia.
Qed.

(** ** The parts of a column *)

Lemma emit_terrain_emits (cx cz height : Z) :
  emits (emit_terrain cx cz height)
        (map (terrain_block_spec cx cz height) (Zseq 0 (Z.to_nat (height + 1)))).
Proof.
  intros n. unfold emit_terrain, for_range. rewrite Z.sub_0_r.
  rewrite (emits_for_ _ (fun cy =>
             [mkBlock (inject_Z cx) (inject_Z cy) (inject_Z cz)
                (if (cy =? height)%Z then grass
                 else if (cy >=? height - 2)%Z then dirt else stone)])).
  - rewrite flat_map_singleton. do 2 f_equal.
    apply map_ext_in. intros cy Hin. apply In_Zseq in Hin.
    unfold terrain_block_spec, terrain_type_spec. f_equal.
    destruct (Z.eqb_spec cy height) as [E|E]; trivial.
    rewrite Z.geb_leb.
    replace (cy <? height)%Z with true by (symmetry; apply Z.ltb_lt; lia).
    rewrite andb_true_r. reflexivity.
  - intros i. apply emits_push.
Qed.

Lemma emit_flower_run (random : nat -> Q) (cx cz height : Z) (n : nat) :
  emit_flower random cx cz height n =
  (tt,
   if Qlt_bool 0.95 (random n) && (height >? 2)%Z
   then [mkBlock (inject_Z cx) (inject_Z (height + 1)) (inject_Z cz) flower]
   else [],
   S n).
Proof.
  unfold emit_flower, bind, Math_random.
  destruct (Qlt_bool 0.95 (random n) && (height >? 2)%Z); reflexivity.
Qed.

Lemma tree_loops_emit (cx cz height : Z) :
  emits
    (bind
       (for_range (height + 1) (height + 5) (fun ty =>
          push (mkBlock (inject_Z cx) (inject_Z ty) (inject_Z cz) wood)))
       (fun _ =>
          for_range (-2) (2 + 1) (fun lx =>
            for_range (-2) (2 + 1) (fun lz =>
              for_range 0 2 (fun ly =>
                when (Z.abs lx + Z.abs lz <? 4)%Z
                  (push (mkBlock (inject_Z (cx + lx)) (inject_Z (height + 4 + ly))
                                 (inject_Z (cz + lz)) leaves)))))))
    (trunk_blocks cx cz height ++ canopy_blocks cx cz height).
Proof.
  apply emits_bind.
  - unfold for_range, trunk_blocks.
    replace (height + 5 - (height + 1))%Z with 4%Z by lia.
    rewrite <- flat_map_singleton.
    apply emits_for_. intros i. apply emits_push.
  - unfold for_range, canopy_blocks.
    apply emits_for_. intros lx.
    apply emits_for_. intros lz.
    apply emits_for_. intros ly.
    apply emits_when. apply emits_push.
Qed.

Lemma emit_tree_run (random : nat -> Q) (cx cz height : Z) (n : nat) :
  emit_tree random cx cz height n =
  (tt,
   if Qlt_bool 0.98 (random n) && (height >? 2)%Z
   then trunk_blocks cx cz height ++ canopy_blocks cx cz height
   else [],
   S n).
Proof.
  unfold emit_tree. unfold bind at 1. unfold Math_random at 1.
  destruct (Qlt_bool 0.98 (random n) && (height >? 2)%Z); simpl when.
  - rewrite tree_loops_emit. reflexivity.
  - reflexivity.
Qed.

(** A column is its terrain, then its flower, then its tree; it makes two
    draws whatever its height. *)
Lemma column_run (noise2D : Q -> Q -> Q) (random : nat -> Q) (cx cz : Z) (n : nat) :
  column noise2D random cx cz n =
  (tt,
   map (terrain_block_spec cx cz (column_height noise2D cx cz))
       (Zseq 0 (Z.to_nat (column_height noise2D cx cz + 1))) ++
   (if Qlt_bool 0.95 (random n) && (column_height noise2D cx cz >? 2)%Z
    then [mkBlock (inject_Z cx) (inject_Z (column_height noise2D cx cz + 1))
                  (inject_Z cz) flower]
    else []) ++
   (if Qlt_bool 0.98 (random (S n)) && (column_height noise2D cx cz >? 2)%Z
    then trunk_blocks cx cz (column_height noise2D cx cz) ++
         canopy_blocks cx cz (column_height noise2D cx cz)
    else []),
   S (S n)).
Proof.
  unfold column, bind.
  rewrite emit_terrain_emits, emit_flower_run, emit_tree_run. reflexivity.
Qed.

Lemma column_height_negative (noise2D : Q -> Q -> Q) (cx cz : Z) :
  (column_height noise2D cx cz < 0)%Z <->
  noise2D (inject_Z cx * 0.1) (inject_Z cz * 0.1) < -0.75.
Proof.
  unfold column_height.
  generalize (noise2D (inject_Z cx * 0.1) (inject_Z cz * 0.1)). intros v.
  pose proof (Qfloor_le (v * 4 + 3)) as Hlo.
  pose proof (Qlt_floor (v * 4 + 3)) as Hhi.
  split; intros H.
  - assert (inject_Z (Qfloor (v * 4 + 3) + 1) <= inject_Z 0) as Hz
      by (rewrite <- Zle_Qle; lia).
    change (inject_Z 0) with 0 in Hz.
    revert Hhi Hz. generalize (inject_Z (Qfloor (v * 4 + 3) + 1)). intros u Hhi Hz.
    Lqa.lra.
  - rewrite Zlt_Qlt. change (inject_Z 0) with 0.
    revert Hlo. generalize (inject_Z (Qfloor (v * 4 + 3))). intros u Hlo.
    Lqa.lra.
Qed.

Lemma Qeq_bool_inject_Z (a b : Z) : Qeq_bool (inject_Z a) (inject_Z b) = (a =? b)%Z.
Proof.
  apply eq_true_iff_eq. rewrite Qeq_bool_iff, Z.eqb_eq.
  apply inject_Z_injective.
Qed.

Lemma at_level_terrain (cx cz height cy : Z) (n : nat) :
  forall lo,
    at_level cy (map (terrain_block_spec cx cz height) (Zseq lo n)) =
    if ((lo <=? cy) && (cy <? lo + Z.of_nat n))%Z
    then [terrain_block_spec cx cz height cy] else [].
Proof.
  unfold at_level. induction n as [|k IH]; intros lo.
  - simpl. destruct (Z.leb_spec lo cy), (Z.ltb_spec cy (lo + 0)); trivial; exfalso; lia.
  - simpl Zseq. simpl map. simpl filter. rewrite IH, Qeq_bool_inject_Z.
    rewrite Nat2Z.inj_succ.
    destruct (Z.leb_spec (lo + 1) cy), (Z.ltb_spec cy (lo + 1 + Z.of_nat k)),
      (Z.eqb_spec lo cy) as [Heq|Hne];
      try (exfalso; lia);
      try rewrite Heq;
      cbn [andb app].
    all: match goal with
         | |- context [(?a <=? ?b)%Z] => destruct (Z.leb_spec a b)
         end.
    all: match goal with
         | |- context [(?a <? ?b)%Z] => destruct (Z.ltb_spec a b)
         end.
    all: cbn [andb]; trivial; exfalso; lia.
Qed.

Lemma trunk_blocks_type (cx cz height : Z) (b : Block) :
  In b (trunk_blocks cx cz height) -> type b = wood.
Proof.
  unfold trunk_blocks. rewrite in_map_iff. intros (ty & <- & _). reflexivity.
Qed.

Lemma canopy_blocks_type (cx cz height : Z) (b : Block) :
  In b (canopy_blocks cx cz height) -> type b = leaves.
Proof.
  unfold canopy_blocks. rewrite in_flat_map. intros (lx & _ & H).
  rewrite in_flat_map in H. destruct H as (lz & _ & H).
  rewrite in_flat_map in H. destruct H as (ly & _ & H).
  destruct (Z.abs lx + Z.abs lz <? 4)%Z; simpl in H; [|contradiction].
  destruct H as [<- | []]. reflexivity.
Qed.

(** C7.  In a column of height [height >= 0] the terrain comes first and is
    one block per level from 0 to [height], typed as the specification says;
    what follows it in the column is no terrain.  With a noise value of 0 at
    column (0, 0) the height is 3 and the terrain is stone, dirt, dirt,
    grass at levels 0 to 3, with nothing at level 4. *)
Theorem terrain_column_shape :
  (forall (noise2D : Q -> Q -> Q) (random : nat -> Q) (cx cz height : Z) (n : nat),
     column_height noise2D cx cz = height ->
     (0 <= height)%Z ->
     exists terrain decorations,
       pushed (column noise2D random cx cz) n = terrain ++ decorations /\
       terrain = pushed (emit_terrain cx cz height) n /\
       terrain = map (terrain_block_spec cx cz height) (Zseq 0 (Z.to_nat (height + 1))) /\
       List.length terrain = Z.to_nat (height + 1) /\
       (forall cy, (0 <= cy <= height)%Z ->
                   at_level cy terrain = [terrain_block_spec cx cz height cy]) /\
       (forall cy, (cy < 0 \/ height < cy)%Z -> at_level cy terrain = []) /\
       (forall b, In b decorations -> is_terrain_type (type b) = false)) /\
  column_height flat_noise 0 0 = 3%Z /\
  pushed (emit_terrain 0 0 3) 0 =
    [mkBlock 0 0 0 stone; mkBlock 0 1 0 dirt; mkBlock 0 2 0 dirt; mkBlock 0 3 0 grass] /\
  at_level 4 (pushed (emit_terrain 0 0 3) 0) = [].
Proof.
  split; [|repeat split; reflexivity].
  intros noise2D random cx cz height n Hh Hpos.
  pose proof (column_run noise2D random cx cz n) as Hrun.
  rewrite Hh in Hrun.
  eexists. eexists. split; [|split; [|split; [|split; [|split; [|split]]]]].
  - unfold pushed. rewrite Hrun. cbn [fst snd]. reflexivity.
  - symmetry. apply emits_pushed. apply emit_terrain_emits.
  - reflexivity.
  - rewrite length_map. apply length_Zseq.
  - intros cy Hcy. rewrite at_level_terrain.
    destruct (Z.leb_spec 0 cy), (Z.ltb_spec cy (0 + Z.of_nat (Z.to_nat (height + 1))));
      trivial; exfalso; lia.
  - intros cy Hcy. rewrite at_level_terrain.
    destruct (Z.leb_spec 0 cy), (Z.ltb_spec cy (0 + Z.of_nat (Z.to_nat (height + 1))));
      trivial; exfalso; lia.
  - intros b Hb. apply in_app_or in Hb. destruct Hb as [Hb|Hb].
    + destruct (Qlt_bool 0.95 (random n) && (height >? 2)%Z); simpl in Hb;
        [|contradiction].
      destruct Hb as [<- | []]. reflexivity.
    + destruct (Qlt_bool 0.98 (random (S n)) && (height >? 2)%Z); [|destruct Hb].
      apply in_app_or in Hb. destruct Hb as [Hb|Hb].
      * apply trunk_blocks_type in Hb. rewrite Hb. reflexivity.
      * apply canopy_blocks_type in Hb. rewrite Hb. reflexivity.
Qed.

Lemma terrain_column_shape_witness :
  exists terrain decorations,
    pushed (column flat_noise no_draws 0 0) 0 = terrain ++ decorations /\
    terrain = map (terrain_block_spec 0 0 3) (Zseq 0 4).
Proof.
  destruct (proj1 terrain_column_shape flat_noise no_draws 0%Z 0%Z 3%Z 0%nat)
    as (terrain & decorations & H1 & _ & H3 & _).
  - reflexivity.
  - lia.
  - exists terrain, decorations. split; assumption.
Defined.

(** C10.  A column whose height is negative, which is the case exactly when
    its noise value is below -0.75, pushes nothing whatever the two draws
    are: no terrain, no flower, no tree.  A world can so have a column of
    the square with no block in it: with one such value, for column (5, 7),
    and flat noise elsewhere, no generated block has [x = 5] and [z = 7]. *)
Theorem negative_height_column_is_empty :
  (forall (noise2D : Q -> Q -> Q) (cx cz : Z),
     (column_height noise2D cx cz < 0)%Z <->
     noise2D (inject_Z cx * 0.1) (inject_Z cz * 0.1) < -0.75) /\
  (forall (noise2D : Q -> Q -> Q) (random : nat -> Q) (cx cz : Z) (n : nat),
     (column_height noise2D cx cz < 0)%Z ->
     pushed (column noise2D random cx cz) n = []) /\
  (column_height pit_noise 5 7 < 0)%Z /\
  Z.of_nat (List.length (generateWorld pit_noise no_draws)) = 16380%Z /\
  existsb (fun b => Qeq_bool (x b) 5 && Qeq_bool (z b) 7)
          (generateWorld pit_noise no_draws) = false.
Proof.
  split; [exact column_height_negative|].
  split.
  - intros noise2D random cx cz n H.
    unfold pushed. rewrite column_run. cbn [fst snd].
    replace (Z.to_nat (column_height noise2D cx cz + 1)) with 0%nat by lia.
    replace (column_height noise2D cx cz >? 2)%Z with false
      by (symmetry; rewrite Z.gtb_ltb; apply Z.ltb_ge; lia).
    rewrite !andb_false_r. reflexivity.
  - repeat split; vm_compute; reflexivity.
Qed.

Lemma negative_height_column_is_empty_witness :
  pushed (column pit_noise (fun _ => 0.99) 5 7) 0 = [].
Proof.
  apply (proj1 (proj2 negative_height_column_is_empty)
           pit_noise (fun _ => 0.99) 5%Z 7%Z 0%nat).
  reflexivity.
Defined.

(** ** Uniqueness and the generated world *)

(** The top of the trunk and the centre of the lower canopy layer are two
    entries at [(cx, height + 4, cz)]. *)
Lemma tree_not_unique (cx cz height : Z) :
  unique_coordinates (trunk_blocks cx cz height ++ canopy_blocks cx cz height) = false.
Proof.
  destruct (unique_coordinates _) eqn:E; trivial. exfalso.
  rewrite unique_coordinates_spec in E.
  specialize (E 3%nat 24%nat
                (mkBlock (inject_Z cx) (inject_Z (height + 1 + 1 + 1 + 1)) (inject_Z cz) wood)
                (mkBlock (inject_Z (cx + 0)) (inject_Z (height + 4 + 0)) (inject_Z (cz + 0))
                         leaves)
                eq_refl eq_refl).
  enough (3 = 24)%nat by discriminate. apply E.
  apply at_position_spec. cbn [x y z].
  rewrite !inject_Z_injective. lia.
Qed.

Lemma column_with_tree_not_unique
    (noise2D : Q -> Q -> Q) (random : nat -> Q) (cx cz : Z) (n : nat) :
  (column_height noise2D cx cz > 2)%Z ->
  0.98 < random (S n) ->
  unique_coordinates (pushed (column noise2D random cx cz) n) = false.
Proof.
  intros Hh Hr. unfold pushed. rewrite column_run. cbn [fst snd].
  apply Qlt_bool_iff in Hr. rewrite Hr.
  replace (column_height noise2D cx cz >? 2)%Z with true
    by (symmetry; rewrite Z.gtb_ltb; apply Z.ltb_lt; lia).
  cbn [andb].
  destruct (unique_coordinates _) eqn:E; trivial.
  apply unique_coordinates_app_r, unique_coordinates_app_r in E.
  rewrite tree_not_unique in E. discriminate.
Qed.

Lemma draws_column (noise2D : Q -> Q -> Q) (random : nat -> Q) (cx cz : Z) (n : nat) :
  draws (column noise2D random cx cz) n = (n + 2)%nat.
Proof. unfold draws. rewrite column_run. simpl. lia. Qed.

(** A column of the square runs on the draws numbered from twice its
    position in the loop order, and its blocks are a segment of the world. *)
Lemma generateWorld_column (noise2D : Q -> Q -> Q) (random : nat -> Q) (cx cz : Z) :
  (- WORLD_SIZE <= cx < WORLD_SIZE)%Z ->
  (- WORLD_SIZE <= cz < WORLD_SIZE)%Z ->
  exists before after,
    generateWorld noise2D random =
    before ++ pushed (column noise2D random cx cz) (2 * column_index cx cz) ++ after.
Proof.
  unfold generateWorld, generateWorld_loops, column_index, for_range, WORLD_SIZE.
  change (Z.to_nat (32 - - (32))) with 64%nat.
  intros Hx Hz.
  destruct (pushed_for_split
              (fun cx0 => for_ (- (32)) 64 (fun cz0 => column noise2D random cx0 cz0))
              64 (Z.to_nat (cx + 32)) (- (32)) 0) as (b1 & a1 & E1); [lia|].
  rewrite E1.
  rewrite (draws_for_const _ (64 * 2)).
  2:{ intros i n. apply draws_for_const. intros j m. apply draws_column. }
  replace (- (32) + Z.of_nat (Z.to_nat (cx + 32)))%Z with cx by lia.
  destruct (pushed_for_split
              (fun cz0 => column noise2D random cx cz0)
              64 (Z.to_nat (cz + 32)) (- (32))
              (0 + Z.to_nat (cx + 32) * (64 * 2))) as (b2 & a2 & E2); [lia|].
  rewrite E2.
  rewrite (draws_for_const _ 2) by (intros j m; apply draws_column).
  replace (- (32) + Z.of_nat (Z.to_nat (cz + 32)))%Z with cz by lia.
  replace (0 + Z.to_nat (cx + 32) * (64 * 2) + Z.to_nat (cz + 32) * 2)%nat
    with (2 * Z.to_nat ((cx + 32) * (2 * 32) + (cz + 32)))%nat by lia.
  exists (b1 ++ b2), (a2 ++ a1).
  rewrite <- !app_assoc. reflexivity.
Qed.

Lemma generateWorld_with_tree_not_unique
    (noise2D : Q -> Q -> Q) (random : nat -> Q) (cx cz : Z) :
  (- WORLD_SIZE <= cx < WORLD_SIZE)%Z ->
  (- WORLD_SIZE <= cz < WORLD_SIZE)%Z ->
  (column_height noise2D cx cz > 2)%Z ->
  0.98 < random (2 * column_index cx cz + 1)%nat ->
  unique_coordinates (generateWorld noise2D random) = false.
Proof.
  intros Hx Hz Hh Hr.
  destruct (generateWorld_column noise2D random cx cz Hx Hz) as (b & a & E).
  rewrite E.
  destruct (unique_coordinates _) eqn:U; trivial.
  apply unique_coordinates_app_r, unique_coordinates_app_l in U.
  rewrite column_with_tree_not_unique in U; [discriminate|exact Hh|].
  replace (S (2 * column_index cx cz)) with (2 * column_index cx cz + 1)%nat by lia.
  exact Hr.
Qed.

Lemma nth_error_segment {A : Type} (before segment after : list A) (k : nat) :
  (k < List.length segment)%nat ->
  nth_error (before ++ segment ++ after) (List.length before + k) = nth_error segment k.
Proof.
  intros Hk. rewrite nth_error_app2 by lia.
  replace (List.length before + k - List.length before)%nat with k by lia.
  apply nth_error_app1. exact Hk.
Qed.

(** C1 (the generator departs from it).  With flat noise and one tree, in
    column (0, 0), the generated array holds the top of the trunk and a
    leaf, two entries, both at [(0, 7, 0)].  The same happens for every
    noise field and every sequence of draws that grows a tree in some column
    of the square.  From an array with unique coordinates, every sequence of
    additions and removals yields one. *)
Theorem generateWorld_breaks_uniqueness :
  ((exists i j,
      i <> j /\
      nth_error (generateWorld flat_noise one_tree_draws) i = Some (mkBlock 0 7 0 wood) /\
      nth_error (generateWorld flat_noise one_tree_draws) j = Some (mkBlock 0 7 0 leaves)) /\
   unique_coordinates (generateWorld flat_noise one_tree_draws) = false) /\
  (forall (noise2D : Q -> Q -> Q) (random : nat -> Q) (cx cz : Z),
     (- WORLD_SIZE <= cx < WORLD_SIZE)%Z ->
     (- WORLD_SIZE <= cz < WORLD_SIZE)%Z ->
     (column_height noise2D cx cz > 2)%Z ->
     0.98 < random (2 * column_index cx cz + 1)%nat ->
     unique_coordinates (generateWorld noise2D random) = false) /\
  (forall (ops : list StoreOp) (blocks : list Block),
     unique_coordinates blocks = true ->
     unique_coordinates (apply_ops ops blocks) = true).
Proof.
  split; [|split].
  - assert (- WORLD_SIZE <= 0 < WORLD_SIZE)%Z as Hin by (unfold WORLD_SIZE; lia).
    split.
    + destruct (generateWorld_column flat_noise one_tree_draws 0 0 Hin Hin)
        as (before & after & E).
      exists (List.length before + 7)%nat, (List.length before + 28)%nat.
      split; [lia|]. rewrite E.
      split; (rewrite nth_error_segment; [vm_compute; reflexivity|vm_compute; lia]).
    + apply (generateWorld_with_tree_not_unique flat_noise one_tree_draws 0 0);
        trivial; vm_compute; reflexivity.
  - exact generateWorld_with_tree_not_unique.
  - exact unique_coordinates_apply_ops.
Qed.

Lemma generateWorld_breaks_uniqueness_witness :
  unique_coordinates (generateWorld flat_noise one_tree_draws) = false /\
  unique_coordinates
    (apply_ops [OpAdd 0 0 0 stone; OpAdd 0 0 0 dirt; OpRemove (mkBlock 1 1 1 grass)]
               [mkBlock 1 1 1 wood]) = true.
Proof.
  split.
  - apply (proj1 (proj2 generateWorld_breaks_uniqueness)
             flat_noise one_tree_draws 0%Z 0%Z).
    + unfold WORLD_SIZE. lia.
    + unfold WORLD_SIZE. lia.
    + vm_compute. reflexivity.
    + vm_compute. reflexivity.
  - apply (proj2 (proj2 generateWorld_breaks_uniqueness)). reflexivity.
Defined.

(** ** The intent vector *)

(** C2, as stated, fails: with [W] and [S] both held the z-component is 1,
    and with [A] and [D] both held the x-component is 1. *)
Lemma intent_opposite_keys_counterexample :
  (Keys.forward keys_forward_backward = true /\
   Keys.backward keys_forward_backward = true /\
   ~ Vector3.z (intent keys_forward_backward) == 0) /\
  (Keys.left keys_left_right = true /\
   Keys.right keys_left_right = true /\
   ~ Vector3.x (intent keys_left_right) == 0).
Proof.
  repeat split; intros H; vm_compute in H; discriminate H.
Qed.

(** C2, amended.  The flags are applied as assignments, in the order
    forward, backward, left, right: when forward and backward are both set
    the z-component is [+1], and when left and right are both set the
    x-component is [+1]. *)
Theorem intent_opposite_keys_last_wins (keys : Keys.t) :
  (Keys.forward keys = true -> Keys.backward keys = true ->
   Vector3.z (intent keys) == 1) /\
  (Keys.left keys = true -> Keys.right keys = true ->
   Vector3.x (intent keys) == 1).
Proof.
  destruct keys as [f b l r j]. simpl.
  split; intros -> ->.
  - destruct l, r; reflexivity.
  - reflexivity.
Qed.

Lemma intent_opposite_keys_last_wins_witness :
  Vector3.z (intent keys_forward_backward) == 1 /\
  Vector3.x (intent keys_left_right) == 1.
Proof.
  split.
  - apply (proj1 (intent_opposite_keys_last_wins keys_forward_backward)); reflexivity.
  - apply (proj2 (intent_opposite_keys_last_wins keys_left_right)); reflexivity.
Defined.

(** ** Selection *)

(** The setter overwrites the selection with the type it is given.  The hotbar is the first nine block types, and
    there is a button for exactly these.  A click on a button, or its own
    digit typed on it, selects its type; any other key leaves the selection
    as it was. *)
Theorem hotbar_selection :
  (forall ty selectedBlock, setSelectedBlock ty selectedBlock = ty) /\
  hotbar = [grass; dirt; stone; wood; leaves; planks; bricks; glass; wool] /\
  (forall ty, In ty hotbar <-> exists i, In (i, ty) buttons) /\
  (forall i ty selectedBlock,
     In (i, ty) buttons ->
     nth_error blockTypes i = Some ty /\
     button i ty Click selectedBlock = ty /\
     button i ty (KeyDown (String_of_nat (i + 1))) selectedBlock = ty) /\
  (forall i ty key selectedBlock,
     key <> String_of_nat (i + 1) ->
     button i ty (KeyDown key) selectedBlock = selectedBlock).
Proof.
  split; [reflexivity|]. split; [reflexivity|]. split; [|split].
  - intros ty. split.
    + intros H. apply (In_nth_error hotbar ty) in H. destruct H as [i Hi].
      exists i. unfold buttons.
      assert (i < List.length hotbar)%nat as Hlt
        by (apply nth_error_Some; congruence).
      clear -Hi Hlt. simpl in Hlt.
      do 9 (destruct i as [|i]; [injection Hi as <-; simpl; tauto|]).
      lia.
    + intros [i H]. unfold buttons in H. apply in_combine_r in H. exact H.
  - intros i ty sel H. unfold buttons in H. simpl in H.
    repeat (destruct H as [H|H]; [injection H as <- <-; repeat split; reflexivity|]).
    contradiction.
  - intros i ty key sel H. simpl.
    destruct (String.eqb_spec key (String_of_nat (i + 1))); congruence.
Qed.

Lemma hotbar_selection_witness :
  button 2 stone Click grass = stone /\
  button 2 stone (KeyDown "7"%string) grass = grass.
Proof.
  split.
  - apply (proj1 (proj2 (proj2 (proj2 hotbar_selection))) 2%nat stone grass).
    unfold buttons. simpl. tauto.
  - apply (proj2 (proj2 (proj2 (proj2 hotbar_selection))) 2%nat stone "7"%string grass).
    discriminate.
Defined.

(** ** Visibility *)

Lemma float_eqb_not_ltb (a b : float) :
  (a =? b)%float = true -> (a <? b)%float = false.
Proof.
  rewrite FloatAxioms.eqb_spec, FloatAxioms.ltb_spec. unfold SFeqb, SFltb.
  destruct (SFcompare (Prim2SF a) (Prim2SF b)) as [[]|]; congruence.
Qed.

(** C4, as stated, fails: the block (3, 5, -2) and the player position
    (0.76, 5, 5.68), taken as the doubles they are, are at a Euclidean
    distance below 8 (the squared distance is below 64), and the block is
    not returned: the computed distance is the double 8. *)
Lemma visibleBlocks_rounding_counterexample :
  number (Vector3.x rounding_player) = number 0.76 /\
  number (Vector3.z rounding_player) = number 5.68 /\
  squared_distance rounding_block rounding_player < RENDER_DISTANCE ^ 2 /\
  ~ In rounding_block (visibleBlocks [rounding_block] rounding_player).
Proof.
  split; [vm_compute; reflexivity|]. split; [vm_compute; reflexivity|].
  split; [vm_compute; reflexivity|].
  vm_compute. intros [].
Qed.

(** C4, amended.  [visibleBlocks] keeps, in order, exactly the blocks whose
    distance to the player as computed in doubles (differences, squares,
    sums and square root each rounded to nearest) is below 8; a block whose
    computed distance is 8 is not kept, which includes blocks whose exact
    distance is below 8 by less than the rounding; from the origin, of
    three blocks at distances 7.9, 8 and 8.1 only the first is kept. *)
Theorem visibleBlocks_computed_radius :
  (forall blocks playerPos b,
     In b (visibleBlocks blocks playerPos) <->
     In b blocks /\ (distance b playerPos <? number 8)%float = true) /\
  (forall l1 l2 playerPos,
     visibleBlocks (l1 ++ l2) playerPos =
     visibleBlocks l1 playerPos ++ visibleBlocks l2 playerPos) /\
  (forall blocks playerPos b,
     (distance b playerPos =? number 8)%float = true ->
     ~ In b (visibleBlocks blocks playerPos)) /\
  (distance near_block origin = number 7.9 /\
   distance edge_block origin = number 8 /\
   distance far_block origin = number 8.1 /\
   visibleBlocks [near_block; edge_block; far_block] origin = [near_block]) /\
  (within_render_distance rounding_player rounding_block = true /\
   distance rounding_block rounding_player = number 8 /\
   visibleBlocks [rounding_block] rounding_player = []).
Proof.
  split; [|split; [|split; [|split]]].
  - intros blocks p b. unfold visibleBlocks. rewrite filter_In. tauto.
  - intros l1 l2 p. unfold visibleBlocks. apply filter_app.
  - intros blocks p b Heq Hin. unfold visibleBlocks in Hin.
    apply filter_In in Hin. destruct Hin as [_ Hlt].
    apply float_eqb_not_ltb in Heq.
    change (number RENDER_DISTANCE) with (number 8) in Hlt. congruence.
  - repeat split; vm_compute; reflexivity.
  - repeat split; vm_compute; reflexivity.
Qed.

Lemma visibleBlocks_computed_radius_witness :
  ~ In edge_block (visibleBlocks [near_block; edge_block; far_block] origin).
Proof.
  apply (proj1 (proj2 (proj2 visibleBlocks_computed_radius))).
  vm_compute. reflexivity.
Defined.

(** ** The player tick *)

Section Tick.
Context {Euler : Type}.
Variable normalize : Vector3.t -> Vector3.t.
Variable applyEuler : Vector3.t -> Euler -> Vector3.t.

Lemma integrate_velocity_y (delta : Q) (s : Player Euler) :
  Vector3.y (velocity (integrate normalize applyEuler delta s)) =
  (if Keys.jump (keys s) && Qle_bool (Vector3.y (position (camera s))) 5
   then 0.2 else Vector3.y (velocity s)) - 9.8 * delta * 0.1.
Proof.
  unfold integrate.
  destruct (Keys.jump (keys s) && Qle_bool (Vector3.y (position (camera s))) 5);
    reflexivity.
Qed.

Lemma integrate_position_y (delta : Q) (s : Player Euler) :
  Vector3.y (position (camera (integrate normalize applyEuler delta s))) =
  Vector3.y (position (camera s)) +
  Vector3.y (velocity (integrate normalize applyEuler delta s)).
Proof. reflexivity. Qed.

Lemma ground_constraint_below (s : Player Euler) :
  Vector3.y (position (camera s)) < 5 ->
  Vector3.y (position (camera (ground_constraint s))) = 5 /\
  Vector3.y (velocity (ground_constraint s)) = 0.
Proof.
  intros H. apply Qlt_bool_iff in H. unfold ground_constraint. rewrite H.
  split; reflexivity.
Qed.

Lemma ground_constraint_above (s : Player Euler) :
  5 <= Vector3.y (position (camera s)) -> ground_constraint s = s.
Proof.
  intros H. unfold ground_constraint.
  destruct (Qlt_bool (Vector3.y (position (camera s))) 5) eqn:E; trivial.
  apply Qlt_bool_iff in E. exfalso. exact (Qlt_not_le _ _ E H).
Qed.
End Tick.

(** C8, as stated, fails: a player at [y = 5] with the jump key held, after
    a tick of half a second, has vertical velocity 0 and not
    [0.2 - 9.8 * 0.5 * 0.1]. *)
Lemma jump_velocity_counterexample :
  Keys.jump (keys jumping_player) = true /\
  Vector3.y (position (camera jumping_player)) <= 5 /\
  ~ Vector3.y (velocity (useFrame normalize_axis applyEuler_identity 0.5 jumping_player))
    == 0.2 - 9.8 * 0.5 * 0.1.
Proof.
  split; [reflexivity|]. split; [discriminate|].
  intros H. vm_compute in H. discriminate H.
Qed.

(** C8, amended.  With the jump flag set and [y <= 5], the vertical velocity
    is set to 0.2 before the gravity subtraction, so the velocity added to
    the position in that tick is [0.2 - 9.8 * delta * 0.1]; it is also the
    velocity at the end of the tick when the new [y] is not below 5, and
    otherwise the ground constraint leaves 0. *)
Theorem jump_velocity
    (Euler : Type) (normalize : Vector3.t -> Vector3.t)
    (applyEuler : Vector3.t -> Euler -> Vector3.t) (delta : Q) (s : Player Euler) :
  Keys.jump (keys s) = true ->
  Vector3.y (position (camera s)) <= 5 ->
  Vector3.y (velocity (integrate normalize applyEuler delta s))
    == 0.2 - 9.8 * delta * 0.1 /\
  Vector3.y (position (camera (integrate normalize applyEuler delta s)))
    == Vector3.y (position (camera s)) + (0.2 - 9.8 * delta * 0.1) /\
  (5 <= Vector3.y (position (camera s)) + (0.2 - 9.8 * delta * 0.1) ->
   Vector3.y (velocity (useFrame normalize applyEuler delta s))
     == 0.2 - 9.8 * delta * 0.1) /\
  (Vector3.y (position (camera s)) + (0.2 - 9.8 * delta * 0.1) < 5 ->
   Vector3.y (velocity (useFrame normalize applyEuler delta s)) == 0).
Proof.
  intros Hj Hy.
  assert (Vector3.y (velocity (integrate normalize applyEuler delta s))
          = 0.2 - 9.8 * delta * 0.1) as Hv.
  { rewrite integrate_velocity_y, Hj.
    apply Qle_bool_iff in Hy. rewrite Hy. reflexivity. }
  assert (Vector3.y (position (camera (integrate normalize applyEuler delta s)))
          = Vector3.y (position (camera s)) + (0.2 - 9.8 * delta * 0.1)) as Hp.
  { rewrite integrate_position_y, Hv. reflexivity. }
  split; [rewrite Hv; reflexivity|]. split; [rewrite Hp; reflexivity|]. split.
  - intros H. unfold useFrame. rewrite ground_constraint_above.
    + rewrite Hv. reflexivity.
    + rewrite Hp. exact H.
  - intros H. unfold useFrame.
    destruct (ground_constraint_below (integrate normalize applyEuler delta s)) as [_ E].
    + rewrite Hp. exact H.
    + rewrite E. reflexivity.
Qed.

Lemma jump_velocity_witness :
  Vector3.y (velocity (useFrame normalize_axis applyEuler_identity (1 # 60) jumping_player))
    == 0.2 - 9.8 * (1 # 60) * 0.1 /\
  Vector3.y (velocity (useFrame normalize_axis applyEuler_identity 0.5 jumping_player))
    == 0.
Proof.
  split.
  - apply (jump_velocity unit normalize_axis applyEuler_identity (1 # 60) jumping_player).
    + reflexivity.
    + discriminate.
    + discriminate.
  - apply (jump_velocity unit normalize_axis applyEuler_identity 0.5 jumping_player).
    + reflexivity.
    + discriminate.
    + reflexivity.
Defined.

(** C9.  After a tick the player's [y] is at least 5: when the integration
    gives [y < 5] the tick ends with [y = 5] and vertical velocity 0, and
    otherwise it ends as the integration left it.  The tick reads the
    camera, the velocity and the keys only.  From [y = 5] with no vertical
    velocity and no jump, a tick of 1/60 s ends at [y = 5]. *)
Theorem ground_clamp
    (Euler : Type) (normalize : Vector3.t -> Vector3.t)
    (applyEuler : Vector3.t -> Euler -> Vector3.t) (delta : Q) (s : Player Euler) :
  5 <= Vector3.y (position (camera (useFrame normalize applyEuler delta s))) /\
  (Vector3.y (position (camera (integrate normalize applyEuler delta s))) < 5 ->
   Vector3.y (position (camera (useFrame normalize applyEuler delta s))) = 5 /\
   Vector3.y (velocity (useFrame normalize applyEuler delta s)) = 0) /\
  (5 <= Vector3.y (position (camera (integrate normalize applyEuler delta s))) ->
   useFrame normalize applyEuler delta s = integrate normalize applyEuler delta s) /\
  (Vector3.y (position (camera s)) == 5 ->
   Vector3.y (velocity s) == 0 ->
   Keys.jump (keys s) = false ->
   Vector3.y (onMove_arg (useFrame normalize applyEuler (1 # 60) s)) = 5).
Proof.
  split; [|split; [|split]].
  - unfold useFrame.
    destruct (Qlt_le_dec
                (Vector3.y (position (camera (integrate normalize applyEuler delta s)))) 5)
      as [H|H].
    + destruct (ground_constraint_below _ H) as [E _]. rewrite E. apply Qle_refl.
    + rewrite ground_constraint_above; assumption.
  - intros H. unfold useFrame. apply ground_constraint_below. exact H.
  - intros H. unfold useFrame. apply ground_constraint_above. exact H.
  - intros Hy Hv Hj. unfold onMove_arg, useFrame. apply ground_constraint_below.
    rewrite integrate_position_y, integrate_velocity_y, Hj. cbn [andb].
    rewrite Hy, Hv. reflexivity.
Qed.

Lemma ground_clamp_witness :
  Vector3.y (onMove_arg
    (useFrame normalize_axis applyEuler_identity (1 # 60) standing_player)) = 5 /\
  Vector3.y (velocity
    (useFrame normalize_axis applyEuler_identity (1 # 60) standing_player)) = 0 /\
  useFrame normalize_axis applyEuler_identity (1 # 60) jumping_player =
  integrate normalize_axis applyEuler_identity (1 # 60) jumping_player.
Proof.
  split; [|split].
  - apply (ground_clamp unit normalize_axis applyEuler_identity (1 # 60) standing_player);
      reflexivity.
  - apply (ground_clamp unit normalize_axis applyEuler_identity (1 # 60) standing_player).
    reflexivity.
  - apply (ground_clamp unit normalize_axis applyEuler_identity (1 # 60) jumping_player).
    discriminate.
Defined.

(** * Further properties of the code *)

(** ** Keyboard latches *)

Ltac case_code c :=
  destruct (String.eqb_spec c "KeyW") as [->|?];
  [|destruct (String.eqb_spec c "KeyS") as [->|?];
    [|destruct (String.eqb_spec c "KeyA") as [->|?];
      [|destruct (String.eqb_spec c "KeyD") as [->|?];
        [|destruct (String.eqb_spec c "Space") as [->|?]]]]].

(** X1.  A key-down sets the latch of its key and a key-up clears it, so a
    key that went down and up again has its latch cleared; neither touches
    the latch of another key.  A repeated key-down changes nothing more, a
    key-down after a key-up sets the latch, and a code without a case
    changes nothing. *)
Theorem key_latch_press_release (code : string) (k : Keys.t) :
  (In code bound_codes ->
   latch code (handleKeyDown code k) = Some true /\
   latch code (handleKeyUp code k) = Some false /\
   latch code (handleKeyUp code (handleKeyDown code k)) = Some false) /\
  (forall other, other <> code ->
     latch other (handleKeyDown code k) = latch other k /\
     latch other (handleKeyUp code k) = latch other k /\
     latch other (handleKeyUp code (handleKeyDown code k)) = latch other k) /\
  handleKeyUp code (handleKeyDown code k) = handleKeyUp code k /\
  handleKeyDown code (handleKeyDown code k) = handleKeyDown code k /\
  handleKeyDown code (handleKeyUp code k) = handleKeyDown code k /\
  handleKeyUp code (handleKeyUp code k) = handleKeyUp code k /\
  (~ In code bound_codes -> handleKeyDown code k = k /\ handleKeyUp code k = k).
Proof.
  destruct k as [f b l r j].
  split; [|split].
  - unfold handleKeyDown, handleKeyUp, latch, bound_codes. intros Hin.
    simpl in Hin.
    destruct Hin as [<-|[<-|[<-|[<-|[<-|[]]]]]]; cbn; repeat split; reflexivity.
  - intros other Hne. unfold handleKeyDown, handleKeyUp, latch.
    case_code code; case_code other; cbn;
      first [congruence | split; [|split]; reflexivity].
  - unfold handleKeyDown, handleKeyUp, bound_codes.
    case_code code; cbn;
      (split; [|split; [|split; [|split]]]; try reflexivity);
      intros Hn; first [split; reflexivity | exfalso; apply Hn; tauto].
Qed.

Lemma key_latch_press_release_witness :
  latch "KeyW" (handleKeyUp "KeyW" (handleKeyDown "KeyW"
                  (Keys.mk false true false false true))) = Some false /\
  latch "Space" (handleKeyDown "KeyW" (Keys.mk false true false false true))
    = Some true /\
  handleKeyDown "KeyQ" (Keys.mk true false false false true)
    = Keys.mk true false false false true.
Proof.
  split; [|split].
  - destruct (proj1 (key_latch_press_release "KeyW"
                       (Keys.mk false true false false true))) as (_ & _ & H).
    + unfold bound_codes. left. reflexivity.
    + exact H.
  - apply (proj1 (proj2 (key_latch_press_release "KeyW"
                           (Keys.mk false true false false true))) "Space"%string).
    discriminate.
  - apply (key_latch_press_release "KeyQ" (Keys.mk true false false false true)).
    unfold bound_codes. simpl. intuition discriminate.
Defined.

(** X2.  Events on two different keys can be handled in either order. *)
Theorem key_handlers_commute (code1 code2 : string) (k : Keys.t) :
  code1 <> code2 ->
  handleKeyDown code1 (handleKeyDown code2 k) = handleKeyDown code2 (handleKeyDown code1 k) /\
  handleKeyDown code1 (handleKeyUp code2 k) = handleKeyUp code2 (handleKeyDown code1 k) /\
  handleKeyUp code1 (handleKeyUp code2 k) = handleKeyUp code2 (handleKeyUp code1 k).
Proof.
  intros Hne. destruct k as [f b l r j].
  unfold handleKeyDown, handleKeyUp.
  case_code code1; case_code code2; cbn;
    first [congruence | split; [|split]; reflexivity].
Qed.

Lemma key_handlers_commute_witness :
  handleKeyDown "KeyW" (handleKeyUp "Space" (Keys.mk false false false false true))
    = handleKeyUp "Space" (handleKeyDown "KeyW" (Keys.mk false false false false true)).
Proof.
  apply (key_handlers_commute "KeyW" "Space" (Keys.mk false false false false true)).
  discriminate.
Defined.

(** X3.  The intent vector has no vertical component, its other components
    are -1, 0 or 1, it does not depend on the jump latch, and it is the zero
    vector exactly when none of the four direction latches is set: opposite
    keys held together still move the player. *)
Theorem intent_shape (k : Keys.t) :
  Vector3.y (intent k) = 0 /\
  (Vector3.x (intent k) = -1 \/ Vector3.x (intent k) = 0 \/ Vector3.x (intent k) = 1) /\
  (Vector3.z (intent k) = -1 \/ Vector3.z (intent k) = 0 \/ Vector3.z (intent k) = 1) /\
  (forall j, intent (Keys.mk (Keys.forward k) (Keys.backward k) (Keys.left k)
                             (Keys.right k) j) = intent k) /\
  (intent k = Vector3.mk 0 0 0 <->
   Keys.forward k = false /\ Keys.backward k = false /\
   Keys.left k = false /\ Keys.right k = false).
Proof.
  destruct k as [f b l r j].
  destruct f, b, l, r; cbn; repeat split; auto; try discriminate;
    intros (? & ? & ? & ?); discriminate.
Qed.

(** ** How the store operations compose *)

Lemma at_position_refl (px py pz : Q) (ty : BlockType) :
  at_position px py pz (mkBlock px py pz ty) = true.
Proof. apply at_position_spec. simpl. repeat split; reflexivity. Qed.

Lemma filter_comm {A : Type} (f g : A -> bool) (l : list A) :
  filter f (filter g l) = filter g (filter f l).
Proof.
  induction l as [|a l IH]; simpl; trivial.
  destruct (f a) eqn:Ef, (g a) eqn:Eg; simpl; rewrite ?Ef, ?Eg, IH; reflexivity.
Qed.

Lemma filter_idem {A : Type} (f : A -> bool) (l : list A) :
  filter f (filter f l) = filter f l.
Proof.
  induction l as [|a l IH]; simpl; trivial.
  destruct (f a) eqn:Ef; simpl; rewrite ?Ef, IH; reflexivity.
Qed.

Lemma filter_length_lt {A : Type} (f : A -> bool) (l : list A) (a : A) :
  In a l -> f a = false -> (List.length (filter f l) < List.length l)%nat.
Proof.
  induction l as [|b l IH]; simpl; [contradiction|].
  intros [->|Hin] Hf.
  - rewrite Hf. pose proof (filter_length_le f l). lia.
  - specialize (IH Hin Hf). destruct (f b); simpl; lia.
Qed.

(** X4.  Placing a block on a free coordinate and then removing the block
    at that coordinate gives back the array as it was, entry for entry. *)
Theorem add_then_remove_round_trip
    (blocks : list Block) (px py pz : Q) (ty ty' : BlockType) :
  ~ occupied blocks px py pz ->
  handleBlockRemove (mkBlock px py pz ty')
    (handleBlockAdd blocks px py pz ty blocks) = blocks.
Proof.
  intros Hfree. apply not_occupied_existsb in Hfree.
  unfold handleBlockAdd, handleBlockRemove. rewrite Hfree. cbn [negb x y z].
  rewrite filter_app. cbn [filter]. rewrite at_position_refl. cbn [negb].
  rewrite app_nil_r.
  induction blocks as [|a rest IH]; simpl in *; trivial.
  apply orb_false_iff in Hfree. destruct Hfree as [Ha Hrest].
  rewrite Ha. simpl. f_equal. auto.
Qed.

Lemma add_then_remove_round_trip_witness :
  handleBlockRemove (mkBlock 1 3 3 grass)
    (handleBlockAdd [mkBlock 1 2 3 grass] 1 3 3 stone [mkBlock 1 2 3 grass])
  = [mkBlock 1 2 3 grass].
Proof.
  apply (add_then_remove_round_trip [mkBlock 1 2 3 grass] 1 3 3 stone grass).
  intros (b & [<- | []] & _ & Hy & _). simpl in Hy. discriminate Hy.
Defined.

(** X5.  Removal looks at the coordinate only, not at the type of the block
    it is given; it leaves the coordinate free, doing it twice is doing it
    once, two removals can be done in either order, and removing a block
    that is in the array makes the array shorter. *)
Theorem remove_composition (b c : Block) (prev : list Block) :
  (x b == x c /\ y b == y c /\ z b == z c ->
   handleBlockRemove b prev = handleBlockRemove c prev) /\
  ~ occupied (handleBlockRemove b prev) (x b) (y b) (z b) /\
  handleBlockRemove b (handleBlockRemove b prev) = handleBlockRemove b prev /\
  handleBlockRemove b (handleBlockRemove c prev) =
    handleBlockRemove c (handleBlockRemove b prev) /\
  (In b prev ->
   (List.length (handleBlockRemove b prev) < List.length prev)%nat).
Proof.
  unfold handleBlockRemove. split; [|split; [|split; [|split]]].
  - intros (Hx & Hy & Hz). apply filter_ext. intros a. f_equal.
    apply eq_true_iff_eq. rewrite !at_position_spec.
    rewrite Hx, Hy, Hz. tauto.
  - intros (a & Hin & Ha). apply filter_In in Hin. destruct Hin as [_ Hin].
    apply at_position_spec in Ha. rewrite Ha in Hin. discriminate.
  - apply filter_idem.
  - apply filter_comm.
  - intros Hin. apply (filter_length_lt _ _ b Hin).
    rewrite (proj2 (at_position_spec (x b) (y b) (z b) b)); trivial.
    repeat split; reflexivity.
Qed.

Lemma remove_composition_witness :
  handleBlockRemove (mkBlock 1 2 3 stone) [mkBlock 1 2 3 grass; mkBlock 0 0 0 dirt]
    = handleBlockRemove (mkBlock (2 # 2) 2 3 wool) [mkBlock 1 2 3 grass; mkBlock 0 0 0 dirt] /\
  (List.length (handleBlockRemove (mkBlock 0 0 0 dirt)
                  [mkBlock 1 2 3 grass; mkBlock 0 0 0 dirt]) < 2)%nat.
Proof.
  split.
  - apply (remove_composition (mkBlock 1 2 3 stone) (mkBlock (2 # 2) 2 3 wool)).
    simpl. repeat split; reflexivity.
  - apply (remove_composition (mkBlock 0 0 0 dirt) (mkBlock 0 0 0 dirt)
             [mkBlock 1 2 3 grass; mkBlock 0 0 0 dirt]).
    simpl. tauto.
Defined.

(** X6.  An addition never changes or drops an entry: the array it is
    applied to is a prefix of the result, whatever render the handler comes
    from.  With the handler of the current render the coordinate is
    occupied afterwards, a second addition there changes nothing, and the
    type of the block that was there first stays. *)
Theorem add_composition
    (blocks prev : list Block) (px py pz : Q) (ty ty' : BlockType) :
  (exists suffix,
     handleBlockAdd blocks px py pz ty prev = prev ++ suffix /\
     (List.length suffix <= 1)%nat) /\
  occupied (handleBlockAdd prev px py pz ty prev) px py pz /\
  handleBlockAdd (handleBlockAdd prev px py pz ty prev) px py pz ty'
                 (handleBlockAdd prev px py pz ty prev)
    = handleBlockAdd prev px py pz ty prev.
Proof.
  assert (occupied (handleBlockAdd prev px py pz ty prev) px py pz) as Hocc.
  { apply occupied_existsb. unfold handleBlockAdd.
    destruct (existsb (at_position px py pz) prev) eqn:E; simpl; trivial.
    rewrite existsb_app. simpl. rewrite at_position_refl.
    rewrite orb_true_r. reflexivity. }
  split; [|split; trivial].
  - unfold handleBlockAdd. destruct (negb _).
    + eexists. split; [reflexivity|simpl; lia].
    + exists []. rewrite app_nil_r. split; [reflexivity|simpl; lia].
  - apply occupied_existsb in Hocc.
    unfold handleBlockAdd at 1. rewrite Hocc. reflexivity.
Qed.

(** X7.  The occupancy test of [handleBlockAdd] reads the array of the
    render that created the handler, not the array the update is applied
    to: two additions at one free coordinate made by the same handler both
    append, and the array then holds two blocks at that coordinate. *)
Theorem stale_handler_adds_twice
    (blocks : list Block) (px py pz : Q) (ty ty' : BlockType) :
  ~ occupied blocks px py pz ->
  handleBlockAdd blocks px py pz ty' (handleBlockAdd blocks px py pz ty blocks)
    = blocks ++ [mkBlock px py pz ty; mkBlock px py pz ty'] /\
  unique_coordinates
    (handleBlockAdd blocks px py pz ty' (handleBlockAdd blocks px py pz ty blocks))
    = false.
Proof.
  intros Hfree. apply not_occupied_existsb in Hfree.
  assert (handleBlockAdd blocks px py pz ty' (handleBlockAdd blocks px py pz ty blocks)
          = blocks ++ [mkBlock px py pz ty; mkBlock px py pz ty']) as E.
  { unfold handleBlockAdd. rewrite Hfree. simpl. rewrite <- app_assoc. reflexivity. }
  split; trivial. rewrite E.
  destruct (unique_coordinates _) eqn:U; trivial.
  apply unique_coordinates_app_r in U. simpl in U.
  rewrite at_position_refl in U. discriminate.
Qed.

Lemma stale_handler_adds_twice_witness :
  unique_coordinates
    (handleBlockAdd [mkBlock 1 2 3 grass] 1 3 3 dirt
       (handleBlockAdd [mkBlock 1 2 3 grass] 1 3 3 stone [mkBlock 1 2 3 grass]))
    = false.
Proof.
  apply (stale_handler_adds_twice [mkBlock 1 2 3 grass] 1 3 3 stone dirt).
  intros (b & [<- | []] & _ & Hy & _). simpl in Hy. discriminate Hy.
Defined.

(** X8.  What is drawn after a removal is what was drawn before, less the
    blocks at the removed coordinate; what is drawn is always part of the
    store, in the order of the store. *)
Theorem visibleBlocks_after_remove
    (b : Block) (blocks : list Block) (playerPos : Vector3.t) :
  visibleBlocks (handleBlockRemove b blocks) playerPos =
    handleBlockRemove b (visibleBlocks blocks playerPos) /\
  incl (visibleBlocks blocks playerPos) blocks /\
  (List.length (visibleBlocks blocks playerPos) <= List.length blocks)%nat /\
  (unique_coordinates blocks = true ->
   unique_coordinates (visibleBlocks blocks playerPos) = true).
Proof.
  unfold visibleBlocks, handleBlockRemove.
  split; [apply filter_comm|]. split; [apply incl_filter|].
  split; [apply filter_length_le|].
  induction blocks as [|a rest IH]; simpl; trivial.
  destruct (existsb (at_position (x a) (y a) (z a)) rest) eqn:E; [discriminate|].
  intros H. destruct (distance a playerPos <? number RENDER_DISTANCE)%float;
    simpl; auto.
  rewrite existsb_filter_false; auto.
Qed.

Lemma visibleBlocks_after_remove_witness :
  unique_coordinates (visibleBlocks [near_block; edge_block; far_block] origin) = true.
Proof.
  apply (visibleBlocks_after_remove near_block [near_block; edge_block; far_block] origin).
  reflexivity.
Defined.

(** ** Clicks on the world *)

Lemma handleClick_outcome (hoveredBlock : option Block) (blocks : list Block)
    (event_button : Z) (window_selectedBlockType : option BlockType) :
  handleClick hoveredBlock blocks event_button window_selectedBlockType =
  match hoveredBlock, blocks with
  | Some _, _ :: _ => Thrown
  | _, _ => Returned None
  end.
Proof.
  unfold handleClick. destruct hoveredBlock as [block|]; trivial.
  destruct blocks as [|b rest]; reflexivity.
Qed.

(** X9.  A mouse-down never reaches [onBlockRemove] or [onBlockAdd].
    Without a hovered block [handleClick] returns at once; with one it
    hands the raycaster the block records it was given: when there is any,
    the raycaster throws, and when there is none, no intersection is found.
    So whatever the button, the hovered block, the player position and the
    selection are, a mouse-down leaves the store and the selection as they
    were. *)
Theorem click_never_acts (hoveredBlock : option Block) (event_button : Z) :
  (forall blocks window_selectedBlockType,
     (hoveredBlock <> None /\ blocks <> [] ->
      handleClick hoveredBlock blocks event_button window_selectedBlockType = Thrown) /\
     (hoveredBlock = None \/ blocks = [] ->
      handleClick hoveredBlock blocks event_button window_selectedBlockType
        = Returned None)) /\
  (forall s playerPos,
     session_step s (MouseDown hoveredBlock playerPos event_button) = s).
Proof.
  split.
  - intros blocks w. rewrite handleClick_outcome. split.
    + intros [Hh Hb]. destruct hoveredBlock; [|congruence].
      destruct blocks; [congruence|reflexivity].
    + intros [->| ->]; [reflexivity|]. destruct hoveredBlock; reflexivity.
  - intros s playerPos. simpl. rewrite handleClick_outcome.
    destruct hoveredBlock; trivial.
    destruct (visibleBlocks (Session.blocks s) playerPos); reflexivity.
Qed.

Lemma click_never_acts_witness :
  handleClick (Some (mkBlock 0 0 0 grass)) [mkBlock 0 0 0 grass] 0 (Some grass) = Thrown /\
  handleClick (Some (mkBlock 0 0 0 grass)) [] 2 (Some grass) = Returned None.
Proof.
  split.
  - apply (proj1 (click_never_acts (Some (mkBlock 0 0 0 grass)) 0)).
    split; discriminate.
  - apply (proj1 (click_never_acts (Some (mkBlock 0 0 0 grass)) 2)).
    right. reflexivity.
Defined.

Lemma session_step_blocks (s : Session.t) (ev : SessionEvent) :
  Session.blocks (session_step s ev) = Session.blocks s.
Proof.
  destruct ev as [i e|hovered playerPos btn]; simpl.
  - destruct (nth_error hotbar i); reflexivity.
  - rewrite handleClick_outcome. destruct hovered; trivial.
    destruct (visibleBlocks (Session.blocks s) playerPos); reflexivity.
Qed.

(** X10.  The store of a session never changes: after any sequence of
    hotbar events and mouse-downs it is the array the session started
    with, so from the first render on it is the generated world. *)
Theorem session_store_is_constant (evs : list SessionEvent) (s : Session.t) :
  Session.blocks (session_run evs s) = Session.blocks s.
Proof.
  unfold session_run. revert s.
  induction evs as [|ev evs IH]; intros s; simpl; trivial.
  rewrite IH. apply session_step_blocks.
Qed.

(** ** More on the generated world *)

Lemma existsb_false_iff {A : Type} (f : A -> bool) (l : list A) :
  existsb f l = false <-> forall a, In a l -> f a = false.
Proof.
  induction l as [|b l IH]; simpl.
  - split; trivial. intros _ a [].
  - rewrite orb_false_iff, IH. split.
    + intros [Hb Hl] a [<-|Ha]; auto.
    + intros H. split; auto.
Qed.

Lemma unique_coordinates_app (l1 l2 : list Block) :
  unique_coordinates l1 = true ->
  unique_coordinates l2 = true ->
  (forall b c, In b l1 -> In c l2 -> at_position (x b) (y b) (z b) c = false) ->
  unique_coordinates (l1 ++ l2) = true.
Proof.
  induction l1 as [|a l1 IH]; simpl; trivial.
  destruct (existsb (at_position (x a) (y a) (z a)) l1) eqn:E; [discriminate|].
  intros U1 U2 Hsep. rewrite existsb_app, E. simpl.
  replace (existsb (at_position (x a) (y a) (z a)) l2) with false.
  - apply IH; auto.
  - symmetry. apply existsb_false_iff. intros c Hc. apply Hsep; auto.
Qed.

Lemma at_position_x_differs (b c : Block) (i j : Z) :
  x b = inject_Z i -> x c = inject_Z j -> i <> j ->
  at_position (x b) (y b) (z b) c = false.
Proof.
  intros Hb Hc Hne. unfold at_position.
  rewrite Hb, Hc, Qeq_bool_inject_Z.
  destruct (Z.eqb_spec j i); [congruence|reflexivity].
Qed.

Lemma at_position_y_differs (b c : Block) (i j : Z) :
  y b = inject_Z i -> y c = inject_Z j -> i <> j ->
  at_position (x b) (y b) (z b) c = false.
Proof.
  intros Hb Hc Hne. unfold at_position.
  rewrite Hb, Hc, (Qeq_bool_inject_Z j i).
  destruct (Z.eqb_spec j i); [congruence|].
  rewrite andb_false_r. reflexivity.
Qed.

Lemma at_position_z_differs (b c : Block) (i j : Z) :
  z b = inject_Z i -> z c = inject_Z j -> i <> j ->
  at_position (x b) (y b) (z b) c = false.
Proof.
  intros Hb Hc Hne. unfold at_position.
  rewrite Hb, Hc, (Qeq_bool_inject_Z j i).
  destruct (Z.eqb_spec j i); [congruence|].
  rewrite andb_false_r. reflexivity.
Qed.

Lemma unique_coordinates_terrain (cx cz height : Z) (n : nat) :
  forall lo,
    unique_coordinates (map (terrain_block_spec cx cz height) (Zseq lo n)) = true.
Proof.
  induction n as [|k IH]; intros lo; simpl; trivial.
  replace (existsb _ _) with false; [apply IH|].
  symmetry. apply existsb_false_iff. intros c Hc.
  apply in_map_iff in Hc. destruct Hc as (cy & <- & Hcy).
  apply In_Zseq in Hcy.
  apply (at_position_y_differs (terrain_block_spec cx cz height lo) _ lo cy);
    trivial; lia.
Qed.

(** A column that grows no tree pushes blocks of its own column only, at
    most one per level. *)
Lemma column_without_tree
    (noise2D : Q -> Q -> Q) (random : nat -> Q) (cx cz : Z) (n : nat) :
  Qlt_bool 0.98 (random (S n)) && (column_height noise2D cx cz >? 2)%Z = false ->
  unique_coordinates (pushed (column noise2D random cx cz) n) = true /\
  forall b, In b (pushed (column noise2D random cx cz) n) ->
            x b = inject_Z cx /\ z b = inject_Z cz.
Proof.
  intros Hno. unfold pushed. rewrite column_run. cbn [fst snd]. rewrite Hno.
  rewrite app_nil_r.
  set (h := column_height noise2D cx cz).
  assert (forall b, In b (map (terrain_block_spec cx cz h) (Zseq 0 (Z.to_nat (h + 1)))) ->
                    x b = inject_Z cx /\ z b = inject_Z cz /\
                    exists cy, (cy <= h)%Z /\ y b = inject_Z cy) as Hter.
  { intros b Hb. apply in_map_iff in Hb. destruct Hb as (cy & <- & Hcy).
    apply In_Zseq in Hcy. simpl. repeat split; trivial. exists cy. split; [lia|trivial]. }
  destruct (Qlt_bool 0.95 (random n) && (h >? 2)%Z).
  - split.
    + apply unique_coordinates_push; [apply unique_coordinates_terrain|].
      apply existsb_false_iff. intros b Hb.
      destruct (Hter b Hb) as (_ & _ & cy & Hcy & Ey).
      unfold at_position. rewrite Ey, Qeq_bool_inject_Z.
      destruct (Z.eqb_spec cy (h + 1)); [lia|].
      rewrite andb_false_r. reflexivity.
    + intros b Hb. apply in_app_or in Hb. destruct Hb as [Hb|[<-|[]]].
      * destruct (Hter b Hb) as (Hx & Hz & _). auto.
      * simpl. auto.
  - rewrite app_nil_r. split; [apply unique_coordinates_terrain|].
    intros b Hb. destruct (Hter b Hb) as (Hx & Hz & _). auto.
Qed.

(** A loop whose iterations make [d] draws each, push unique blocks and tag
    them with their own index pushes unique blocks, each tagged with the
    index of an iteration. *)
Lemma for_unique (body : Z -> Gen unit) (d : nat) (tag : Z -> Block -> Prop) :
  (forall i m, draws (body i) m = (m + d)%nat) ->
  (forall i j b c, i <> j -> tag i b -> tag j c ->
                   at_position (x b) (y b) (z b) c = false) ->
  forall (count : nat) (i : Z) (n : nat),
    (forall k, (k < count)%nat ->
       unique_coordinates (pushed (body (i + Z.of_nat k)%Z) (n + k * d)) = true /\
       forall b, In b (pushed (body (i + Z.of_nat k)%Z) (n + k * d)) ->
                 tag (i + Z.of_nat k)%Z b) ->
    unique_coordinates (pushed (for_ i count body) n) = true /\
    forall b, In b (pushed (for_ i count body) n) ->
              exists k, (k < count)%nat /\ tag (i + Z.of_nat k)%Z b.
Proof.
  intros Hd Hsep count. induction count as [|cnt IH]; intros i n H.
  - split; [reflexivity|]. intros b [].
  - simpl for_. rewrite pushed_bind, Hd.
    destruct (H 0%nat ltac:(lia)) as [U0 T0].
    rewrite Z.add_0_r, Nat.mul_0_l, Nat.add_0_r in U0, T0.
    destruct (IH (i + 1)%Z (n + d)%nat) as [Ur Tr].
    { intros k Hk. specialize (H (S k) ltac:(lia)).
      replace (i + 1 + Z.of_nat k)%Z with (i + Z.of_nat (S k))%Z by lia.
      replace (n + d + k * d)%nat with (n + S k * d)%nat by lia.
      exact H. }
    split.
    + apply unique_coordinates_app; trivial.
      intros b c Hb Hc. destruct (Tr c Hc) as (k & Hk & Tc).
      apply (Hsep i (i + 1 + Z.of_nat k)%Z); auto. lia.
    + intros b Hb. apply in_app_or in Hb. destruct Hb as [Hb|Hb].
      * exists 0%nat. split; [lia|]. rewrite Z.add_0_r. auto.
      * destruct (Tr b Hb) as (k & Hk & Tb). exists (S k). split; [lia|].
        replace (i + Z.of_nat (S k))%Z with (i + 1 + Z.of_nat k)%Z by lia.
        exact Tb.
Qed.

Lemma generateWorld_without_tree_unique (noise2D : Q -> Q -> Q) (random : nat -> Q) :
  (forall cx cz, (- WORLD_SIZE <= cx < WORLD_SIZE)%Z ->
                 (- WORLD_SIZE <= cz < WORLD_SIZE)%Z ->
                 grows_tree noise2D random cx cz = false) ->
  unique_coordinates (generateWorld noise2D random) = true.
Proof.
  intros Hno.
  unfold generateWorld, generateWorld_loops, for_range.
  unfold WORLD_SIZE in *.
  change (Z.to_nat (32 - - (32))) with 64%nat.
  apply (for_unique
           (fun cx => for_ (- (32)) 64 (fun cz => column noise2D random cx cz))
           (64 * 2) (fun cx b => x b = inject_Z cx)).
  - intros i m. apply draws_for_const. intros j m'. apply draws_column.
  - intros i j b c Hne Hb Hc. apply (at_position_x_differs b c i j); assumption.
  - intros kx Hkx.
    destruct (for_unique (fun cz => column noise2D random (- (32) + Z.of_nat kx) cz) 2
                (fun cz b => x b = inject_Z (- (32) + Z.of_nat kx) /\ z b = inject_Z cz)
                ltac:(intros; apply draws_column)
                ltac:(intros i j b c Hne [_ Hb] [_ Hc];
                      apply (at_position_z_differs b c i j); assumption)
                64%nat (- (32))%Z (0 + kx * (64 * 2))%nat) as [U T].
    + intros kz Hkz. apply column_without_tree.
      specialize (Hno (- (32) + Z.of_nat kx)%Z (- (32) + Z.of_nat kz)%Z
                      ltac:(lia) ltac:(lia)).
      unfold grows_tree, column_index, WORLD_SIZE in Hno.
      replace (S (0 + kx * (64 * 2) + kz * 2))
        with (2 * Z.to_nat ((- (32) + Z.of_nat kx + 32) * (2 * 32)
                            + (- (32) + Z.of_nat kz + 32)) + 1)%nat by lia.
      exact Hno.
    + split; trivial. intros b Hb. destruct (T b Hb) as (k & _ & Hx & _). exact Hx.
Qed.

(** X11.  The generated world has unique coordinates exactly when no column
    of the square grows a tree: terrain and flowers never collide, and
    every tree does. *)
Theorem generateWorld_unique_iff_no_tree (noise2D : Q -> Q -> Q) (random : nat -> Q) :
  unique_coordinates (generateWorld noise2D random) = true <->
  (forall cx cz, (- WORLD_SIZE <= cx < WORLD_SIZE)%Z ->
                 (- WORLD_SIZE <= cz < WORLD_SIZE)%Z ->
                 grows_tree noise2D random cx cz = false).
Proof.
  split.
  - intros U cx cz Hx Hz.
    destruct (grows_tree noise2D random cx cz) eqn:G; trivial.
    unfold grows_tree in G. apply andb_true_iff in G. destruct G as [Hr Hh].
    apply Qlt_bool_iff in Hr. rewrite Z.gtb_ltb in Hh. apply Z.ltb_lt in Hh.
    assert (unique_coordinates (generateWorld noise2D random) = false) as F
      by (apply (generateWorld_with_tree_not_unique noise2D random cx cz);
          trivial; lia).
    congruence.
  - apply generateWorld_without_tree_unique.
Qed.

Lemma generateWorld_unique_iff_no_tree_witness :
  unique_coordinates (generateWorld flat_noise no_draws) = true.
Proof.
  apply (proj2 (generateWorld_unique_iff_no_tree flat_noise no_draws)).
  intros cx cz _ _. reflexivity.
Defined.

(** X12.  Generation makes two draws in every column, whatever the noise
    and whatever the draws are: 2 * 64 * 64 in all. *)
Theorem generateWorld_draws (noise2D : Q -> Q -> Q) (random : nat -> Q) (n : nat) :
  draws (generateWorld_loops noise2D random) n = (n + 2 * (64 * 64))%nat.
Proof.
  unfold generateWorld_loops, for_range, WORLD_SIZE.
  change (Z.to_nat (32 - - (32))) with 64%nat.
  rewrite (draws_for_const _ (64 * 2)).
  - lia.
  - intros i m. apply draws_for_const. intros j m'. apply draws_column.
Qed.

(** X13.  The number of blocks of a column: one per level from 0 to its
    height, one more for a flower, and 46 more for a tree (4 trunk blocks
    and 42 leaves). *)
Theorem column_block_count
    (noise2D : Q -> Q -> Q) (random : nat -> Q) (cx cz : Z) (n : nat) :
  List.length (pushed (column noise2D random cx cz) n) =
  (Z.to_nat (column_height noise2D cx cz + 1) +
   (if Qlt_bool 0.95 (random n) && (column_height noise2D cx cz >? 2)%Z
    then 1 else 0) +
   (if Qlt_bool 0.98 (random (S n)) && (column_height noise2D cx cz >? 2)%Z
    then 46 else 0))%nat /\
  List.length (trunk_blocks cx cz (column_height noise2D cx cz)) = 4%nat /\
  List.length (canopy_blocks cx cz (column_height noise2D cx cz)) = 42%nat.
Proof.
  split; [|split; reflexivity].
  unfold pushed. rewrite column_run. cbn [fst snd].
  rewrite !length_app, length_map, length_Zseq.
  destruct (Qlt_bool 0.95 (random n) && _), (Qlt_bool 0.98 (random (S n)) && _);
    rewrite ?length_app;
    change (List.length (trunk_blocks cx cz (column_height noise2D cx cz))) with 4%nat;
    change (List.length (canopy_blocks cx cz (column_height noise2D cx cz))) with 42%nat;
    cbn [List.length]; lia.
Qed.

Lemma pushed_for_In (body : Z -> Gen unit) (b : Block) (count : nat) :
  forall (i : Z) (n : nat),
    In b (pushed (for_ i count body) n) ->
    exists k m, (k < count)%nat /\ In b (pushed (body (i + Z.of_nat k)%Z) m).
Proof.
  induction count as [|cnt IH]; intros i n H.
  - destruct H.
  - simpl for_ in H. rewrite pushed_bind in H. apply in_app_or in H.
    destruct H as [H|H].
    + exists 0%nat, n. split; [lia|]. rewrite Z.add_0_r. exact H.
    + destruct (IH _ _ H) as (k & m & Hk & Hb).
      exists (S k), m. split; [lia|].
      replace (i + Z.of_nat (S k))%Z with (i + 1 + Z.of_nat k)%Z by lia.
      exact Hb.
Qed.

Lemma generateWorld_In_column
    (noise2D : Q -> Q -> Q) (random : nat -> Q) (b : Block) :
  In b (generateWorld noise2D random) ->
  exists cx cz n,
    (- WORLD_SIZE <= cx < WORLD_SIZE)%Z /\ (- WORLD_SIZE <= cz < WORLD_SIZE)%Z /\
    In b (pushed (column noise2D random cx cz) n).
Proof.
  unfold generateWorld, generateWorld_loops, for_range, WORLD_SIZE.
  change (Z.to_nat (32 - - (32))) with 64%nat.
  intros H.
  apply pushed_for_In in H. destruct H as (kx & m & Hkx & H).
  apply pushed_for_In in H. destruct H as (kz & m' & Hkz & H).
  exists (- (32) + Z.of_nat kx)%Z, (- (32) + Z.of_nat kz)%Z, m'.
  repeat split; trivial; lia.
Qed.

Lemma In_canopy_blocks (cx cz height : Z) (b : Block) :
  In b (canopy_blocks cx cz height) ->
  exists lx lz ly,
    (-2 <= lx <= 2)%Z /\ (-2 <= lz <= 2)%Z /\ (0 <= ly <= 1)%Z /\
    (Z.abs lx + Z.abs lz < 4)%Z /\
    b = mkBlock (inject_Z (cx + lx)) (inject_Z (height + 4 + ly))
                (inject_Z (cz + lz)) leaves.
Proof.
  unfold canopy_blocks. rewrite in_flat_map. intros (lx & Hlx & H).
  rewrite in_flat_map in H. destruct H as (lz & Hlz & H).
  rewrite in_flat_map in H. destruct H as (ly & Hly & H).
  apply In_Zseq in Hlx, Hlz, Hly.
  destruct (Z.ltb_spec (Z.abs lx + Z.abs lz) 4); [|destruct H].
  destruct H as [<-|[]].
  exists lx, lz, ly. repeat split; trivial; lia.
Qed.

Ltac splits := repeat match goal with |- _ /\ _ => split end.

Lemma generateWorld_block_shape (noise2D : Q -> Q -> Q) (random : nat -> Q) :
  forall b, In b (generateWorld noise2D random) ->
   exists bx by_ bz : Z,
   x b = inject_Z bx /\ y b = inject_Z by_ /\ z b = inject_Z bz /\
   (0 <= by_)%Z /\
   (- WORLD_SIZE - 2 <= bx < WORLD_SIZE + 2)%Z /\
   (- WORLD_SIZE - 2 <= bz < WORLD_SIZE + 2)%Z /\
   is_generated_type (type b) = true /\
   (type b <> leaves ->
    (- WORLD_SIZE <= bx < WORLD_SIZE)%Z /\ (- WORLD_SIZE <= bz < WORLD_SIZE)%Z /\
    (by_ <= column_height noise2D bx bz + 4)%Z).
Proof.
  intros b Hb.
  apply generateWorld_In_column in Hb. destruct Hb as (cx & cz & n & Hx & Hz & Hb).
  unfold pushed in Hb. rewrite column_run in Hb. cbn [fst snd] in Hb.
  unfold WORLD_SIZE in *.
  set (h := column_height noise2D cx cz) in *.
  apply in_app_or in Hb. destruct Hb as [Hb|Hb].
  + apply in_map_iff in Hb. destruct Hb as (cy & <- & Hcy).
    apply In_Zseq in Hcy. exists cx, cy, cz. simpl.
    splits; trivial; try lia.
    unfold terrain_type_spec.
    destruct (cy =? h)%Z; [reflexivity|].
    destruct ((h - 2 <=? cy)%Z && (cy <? h)%Z); reflexivity.
  + apply in_app_or in Hb. destruct Hb as [Hb|Hb].
    * destruct (Z.gtb_spec h 2) as [Hh|Hh];
        [|rewrite andb_false_r in Hb; destruct Hb].
      destruct (Qlt_bool 0.95 (random n)); [|destruct Hb].
      destruct Hb as [<-|[]]. exists cx, (h + 1)%Z, cz. simpl.
      splits; trivial; try lia; try discriminate.
    * destruct (Z.gtb_spec h 2) as [Hh|Hh];
        [|rewrite andb_false_r in Hb; destruct Hb].
      destruct (Qlt_bool 0.98 (random (S n))); [|destruct Hb].
      cbn [andb] in Hb. apply in_app_or in Hb. destruct Hb as [Hb|Hb].
      -- unfold trunk_blocks in Hb. apply in_map_iff in Hb.
         destruct Hb as (ty & <- & Hty). apply In_Zseq in Hty.
         exists cx, ty, cz. simpl. splits; trivial; try lia; try discriminate.
      -- apply In_canopy_blocks in Hb.
         destruct Hb as (lx & lz & ly & Hlx & Hlz & Hly & _ & ->).
         exists (cx + lx)%Z, (h + 4 + ly)%Z, (cz + lz)%Z. simpl.
         splits; trivial; try lia; congruence.
Qed.

Lemma tree_leaf_two_cells_out (noise2D : Q -> Q -> Q) (random : nat -> Q) :
  forall cx cz,
     (- WORLD_SIZE <= cx < WORLD_SIZE)%Z -> (- WORLD_SIZE <= cz < WORLD_SIZE)%Z ->
     grows_tree noise2D random cx cz = true ->
     In (mkBlock (inject_Z (cx - 2)) (inject_Z (column_height noise2D cx cz + 4))
                 (inject_Z cz) leaves)
        (generateWorld noise2D random).
Proof.
  intros cx cz Hx Hz G.
  destruct (generateWorld_column noise2D random cx cz Hx Hz) as (before & after & E).
  rewrite E. apply in_or_app. right. apply in_or_app. left.
  unfold pushed. rewrite column_run. cbn [fst snd].
  unfold grows_tree in G.
  replace (S (2 * column_index cx cz)) with (2 * column_index cx cz + 1)%nat by lia.
  rewrite G.
  apply in_or_app. right. apply in_or_app. right. apply in_or_app. right.
  replace (cx - 2)%Z with (cx + -2)%Z by lia.
  replace (column_height noise2D cx cz + 4)%Z
    with (column_height noise2D cx cz + 4 + 0)%Z by lia.
  replace (inject_Z cz) with (inject_Z (cz + 0)) by (f_equal; lia).
  unfold canopy_blocks. simpl. tauto.
Qed.

(** X14.  Every generated block has integer coordinates, a level of at
    least 0, and one of the six generated types; it lies at most two cells
    outside the square, and inside the square, at most four levels above
    the terrain of its column, when it is not a leaf.  A tree does put a
    leaf two cells to the side of its column, so that a tree on the border
    reaches outside the square. *)
Theorem generated_blocks_bounds (noise2D : Q -> Q -> Q) (random : nat -> Q) :
  (forall b, In b (generateWorld noise2D random) ->
     exists bx by_ bz : Z,
       x b = inject_Z bx /\ y b = inject_Z by_ /\ z b = inject_Z bz /\
       (0 <= by_)%Z /\
       (- WORLD_SIZE - 2 <= bx < WORLD_SIZE + 2)%Z /\
       (- WORLD_SIZE - 2 <= bz < WORLD_SIZE + 2)%Z /\
       is_generated_type (type b) = true /\
       (type b <> leaves ->
        (- WORLD_SIZE <= bx < WORLD_SIZE)%Z /\ (- WORLD_SIZE <= bz < WORLD_SIZE)%Z /\
        (by_ <= column_height noise2D bx bz + 4)%Z)) /\
  (forall cx cz,
     (- WORLD_SIZE <= cx < WORLD_SIZE)%Z -> (- WORLD_SIZE <= cz < WORLD_SIZE)%Z ->
     grows_tree noise2D random cx cz = true ->
     In (mkBlock (inject_Z (cx - 2)) (inject_Z (column_height noise2D cx cz + 4))
                 (inject_Z cz) leaves)
        (generateWorld noise2D random)).
Proof.
  split.
  - apply generateWorld_block_shape.
  - apply tree_leaf_two_cells_out.
Qed.

Lemma generated_blocks_bounds_witness :
  In (mkBlock (inject_Z (-32 - 2)) (inject_Z (column_height flat_noise (-32) 0 + 4))
              (inject_Z 0) leaves)
     (generateWorld flat_noise (fun _ => 0.99)) /\
  exists bx by_ bz : Z,
    inject_Z (-32 - 2) = inject_Z bx /\
    inject_Z (column_height flat_noise (-32) 0 + 4) = inject_Z by_ /\
    inject_Z 0 = inject_Z bz /\ (0 <= by_)%Z.
Proof.
  assert (In (mkBlock (inject_Z (-32 - 2)) (inject_Z (column_height flat_noise (-32) 0 + 4))
                      (inject_Z 0) leaves)
             (generateWorld flat_noise (fun _ => 0.99))) as Hin.
  { apply (proj2 (generated_blocks_bounds flat_noise (fun _ => 0.99)) (-32)%Z 0%Z).
    - unfold WORLD_SIZE. lia.
    - unfold WORLD_SIZE. lia.
    - reflexivity. }
  split; [exact Hin|].
  destruct (proj1 (generated_blocks_bounds flat_noise (fun _ => 0.99)) _ Hin)
    as (bx & by_ & bz & Hx & Hy & Hz & Hpos & _).
  clear Hin. exists bx, by_, bz.
  split; [exact Hx|]. split; [exact Hy|]. split; [exact Hz|exact Hpos].
Defined.

(** ** The player over several events *)

Lemma handleKeyDown_jump (code : string) (k : Keys.t) :
  String.eqb code "Space" = false ->
  Keys.jump (handleKeyDown code k) = Keys.jump k.
Proof.
  intros H. unfold handleKeyDown. rewrite H.
  repeat match goal with |- context [String.eqb code ?c] =>
           destruct (String.eqb code c) end; reflexivity.
Qed.

Lemma handleKeyUp_jump (code : string) (k : Keys.t) :
  Keys.jump k = false -> Keys.jump (handleKeyUp code k) = false.
Proof.
  intros H. unfold handleKeyUp.
  repeat match goal with |- context [String.eqb code ?c] =>
           destruct (String.eqb code c) end; simpl; trivial.
Qed.

Section Frames.
Context {Euler : Type}.
Variable normalize : Vector3.t -> Vector3.t.
Variable applyEuler : Vector3.t -> Euler -> Vector3.t.

Lemma useFrame_keys (delta : Q) (s : Player Euler) :
  keys (useFrame normalize applyEuler delta s) = keys s.
Proof.
  unfold useFrame, ground_constraint.
  destruct (Qlt_bool _ 5); reflexivity.
Qed.

Lemma useFrame_grounded (delta : Q) (s : Player Euler) :
  0 <= delta ->
  Keys.jump (keys s) = false ->
  Vector3.y (position (camera s)) == 5 ->
  Vector3.y (velocity s) <= 0 ->
  Vector3.y (position (camera (useFrame normalize applyEuler delta s))) == 5 /\
  Vector3.y (velocity (useFrame normalize applyEuler delta s)) <= 0.
Proof.
  intros Hd Hj Hy Hv. unfold useFrame.
  destruct (Qlt_le_dec
              (Vector3.y (position (camera (integrate normalize applyEuler delta s)))) 5)
    as [H|H].
  - destruct (ground_constraint_below _ H) as [E1 E2]. rewrite E1, E2.
    split; [reflexivity|apply Qle_refl].
  - rewrite (ground_constraint_above _ H).
    rewrite integrate_position_y, integrate_velocity_y, Hj in *. cbn [andb] in *.
    revert H Hy Hv.
    generalize (Vector3.y (position (camera s))), (Vector3.y (velocity s)).
    intros py vy H Hy Hv. split; Lqa.lra.
Qed.

End Frames.

(** X15.  A player on the ground plane that is not moving upward and whose
    jump latch is clear stays on the ground plane and never moves upward,
    through any sequence of key events and frames in which the jump key
    never goes down and no frame has a negative duration; the direction
    keys and the length of the frames do not matter. *)
Theorem grounded_player_stays_grounded
    (Euler : Type) (normalize : Vector3.t -> Vector3.t)
    (applyEuler : Vector3.t -> Euler -> Vector3.t)
    (evs : list PlayerEvent) (s : Player Euler) :
  forallb calm_event evs = true ->
  Keys.jump (keys s) = false ->
  Vector3.y (position (camera s)) == 5 ->
  Vector3.y (velocity s) <= 0 ->
  Vector3.y (position (camera (player_run normalize applyEuler evs s))) == 5 /\
  Vector3.y (velocity (player_run normalize applyEuler evs s)) <= 0 /\
  Keys.jump (keys (player_run normalize applyEuler evs s)) = false.
Proof.
  unfold player_run. revert s.
  induction evs as [|ev evs IH]; intros s Hc Hj Hy Hv; simpl.
  - auto.
  - simpl in Hc. apply andb_true_iff in Hc. destruct Hc as [Hev Hc].
    apply IH; trivial; destruct ev as [code|code|delta]; simpl in *; trivial.
    + rewrite handleKeyDown_jump; trivial.
      apply negb_true_iff. exact Hev.
    + apply handleKeyUp_jump. exact Hj.
    + rewrite useFrame_keys. exact Hj.
    + apply useFrame_grounded; trivial. apply Qle_bool_iff. exact Hev.
    + apply useFrame_grounded; trivial. apply Qle_bool_iff. exact Hev.
Qed.

Lemma grounded_player_stays_grounded_witness :
  Vector3.y (position (camera
    (player_run normalize_axis applyEuler_identity
       [key_down "KeyW"; frame (1 # 60); frame 2; key_up "KeyW"; key_down "KeyD";
        frame 0; frame (1 # 30)]
       standing_player))) == 5.
Proof.
  apply (grounded_player_stays_grounded unit normalize_axis applyEuler_identity
           [key_down "KeyW"; frame (1 # 60); frame 2; key_up "KeyW"; key_down "KeyD";
            frame 0; frame (1 # 30)] standing_player);
    first [reflexivity | discriminate].
Defined.

(** X16.  Above the ground plane the jump key does nothing: two players
    with the same camera, the same velocity and the same direction latches
    end a frame with the same camera and the same velocity, whatever their
    jump latches are. *)
Theorem no_jump_in_the_air
    (Euler : Type) (normalize : Vector3.t -> Vector3.t)
    (applyEuler : Vector3.t -> Euler -> Vector3.t)
    (delta : Q) (cam : Camera Euler) (vel : Vector3.t) (k1 k2 : Keys.t) :
  5 < Vector3.y (position cam) ->
  Keys.forward k1 = Keys.forward k2 -> Keys.backward k1 = Keys.backward k2 ->
  Keys.left k1 = Keys.left k2 -> Keys.right k1 = Keys.right k2 ->
  camera (useFrame normalize applyEuler delta (mkPlayer cam vel k1)) =
  camera (useFrame normalize applyEuler delta (mkPlayer cam vel k2)) /\
  velocity (useFrame normalize applyEuler delta (mkPlayer cam vel k1)) =
  velocity (useFrame normalize applyEuler delta (mkPlayer cam vel k2)).
Proof.
  intros Hy Hf Hb Hl Hr.
  assert (Qle_bool (Vector3.y (position cam)) 5 = false) as Hair.
  { destruct (Qle_bool _ 5) eqn:E; trivial.
    apply Qle_bool_iff in E. exfalso. exact (Qlt_not_le _ _ Hy E). }
  assert (intent k1 = intent k2) as Hi.
  { destruct k1, k2. simpl in *. subst. reflexivity. }
  unfold useFrame, integrate, ground_constraint. cbn [keys camera velocity position].
  rewrite Hair, !andb_false_r, Hi.
  destruct (Qlt_bool _ 5); split; reflexivity.
Qed.

Lemma no_jump_in_the_air_witness :
  velocity (useFrame normalize_axis applyEuler_identity (1 # 60)
              (mkPlayer (mkCamera (Vector3.mk 0 6 0) tt) (Vector3.mk 0 0 0)
                        (Keys.mk true false false false true))) =
  velocity (useFrame normalize_axis applyEuler_identity (1 # 60)
              (mkPlayer (mkCamera (Vector3.mk 0 6 0) tt) (Vector3.mk 0 0 0)
                        (Keys.mk true false false false false))).
Proof.
  apply (no_jump_in_the_air unit normalize_axis applyEuler_identity (1 # 60)
           (mkCamera (Vector3.mk 0 6 0) tt) (Vector3.mk 0 0 0)
           (Keys.mk true false false false true)
           (Keys.mk true false false false false)); reflexivity.
Defined.

(** X17.  Horizontal motion has no inertia: the horizontal velocity a frame
    leaves is the rotated, normalised intent times [5 * delta], whatever
    the velocity was before; so with no direction key held, a [normalize]
    that keeps the zero vector and a rotation that keeps it, the player
    does not move horizontally. *)
Theorem horizontal_motion_has_no_inertia
    (Euler : Type) (normalize : Vector3.t -> Vector3.t)
    (applyEuler : Vector3.t -> Euler -> Vector3.t)
    (delta : Q) (s : Player Euler) :
  Vector3.x (velocity (useFrame normalize applyEuler delta s)) =
    Vector3.x (applyEuler (normalize (intent (keys s))) (rotation (camera s))) * 5 * delta /\
  Vector3.z (velocity (useFrame normalize applyEuler delta s)) =
    Vector3.z (applyEuler (normalize (intent (keys s))) (rotation (camera s))) * 5 * delta /\
  (intent (keys s) = Vector3.mk 0 0 0 ->
   normalize (Vector3.mk 0 0 0) = Vector3.mk 0 0 0 ->
   (forall e, applyEuler (Vector3.mk 0 0 0) e = Vector3.mk 0 0 0) ->
   Vector3.x (position (camera (useFrame normalize applyEuler delta s)))
     == Vector3.x (position (camera s)) /\
   Vector3.z (position (camera (useFrame normalize applyEuler delta s)))
     == Vector3.z (position (camera s))).
Proof.
  unfold useFrame, ground_constraint, integrate.
  split; [|split].
  - destruct (Qlt_bool _ 5), (Keys.jump (keys s) && _); reflexivity.
  - destruct (Qlt_bool _ 5), (Keys.jump (keys s) && _); reflexivity.
  - intros Hi Hn Ha. rewrite Hi, Hn, Ha.
    destruct (Qlt_bool _ 5), (Keys.jump (keys s) && _);
      cbn [camera position velocity Vector3.x Vector3.z Vector3.y Vector3.add
           Vector3.set_x Vector3.set_y Vector3.set_z];
      split; ring.
Qed.

Lemma horizontal_motion_has_no_inertia_witness :
  Vector3.x (position (camera
    (useFrame normalize_axis applyEuler_identity (1 # 60) jumping_player))) == 0 /\
  Vector3.z (position (camera
    (useFrame normalize_axis applyEuler_identity (1 # 60) jumping_player))) == 10.
Proof.
  apply (horizontal_motion_has_no_inertia unit normalize_axis applyEuler_identity
           (1 # 60) jumping_player); reflexivity.
Defined.

(** ** Sessions *)

Lemma BlockType_eqb_eq (a b : BlockType) : BlockType_eqb a b = true -> a = b.
Proof. destruct a, b; simpl; intros H; trivial; discriminate. Qed.

Lemma hotbar_no_torch_no_stairs (ty : BlockType) :
  In ty hotbar -> ty <> torch /\ ty <> stairs.
Proof.
  unfold hotbar. simpl. intros H.
  repeat (destruct H as [<-|H]; [split; discriminate|]). destruct H.
Qed.

Lemma button_result (i : nat) (ty : BlockType) (e : ButtonEvent) (sel : BlockType) :
  button i ty e sel = ty \/ button i ty e sel = sel.
Proof.
  destruct e as [|key]; simpl; auto.
  destruct (String.eqb key (String_of_nat (i + 1))); auto.
Qed.

Lemma session_step_invariant (s : Session.t) (ev : SessionEvent) :
  session_invariant s -> session_invariant (session_step s ev).
Proof.
  intros Hinv. pose proof Hinv as (Hsel & Hwin & Hblocks).
  destruct ev as [i e|hovered playerPos btn]; simpl.
  - destruct (nth_error hotbar i) as [ty|] eqn:E; [|exact Hinv].
    apply nth_error_In in E.
    unfold session_invariant.
    cbn [Session.selectedBlock Session.window_selectedBlockType Session.blocks].
    split; [|split; [|exact Hblocks]].
    + destruct (button_result i ty e (Session.selectedBlock s)) as [->| ->]; trivial.
    + destruct (BlockType_eqb _ _) eqn:B; trivial.
      apply BlockType_eqb_eq in B. rewrite B. exact Hwin.
  - rewrite handleClick_outcome. destruct hovered; [|exact Hinv].
    destruct (visibleBlocks (Session.blocks s) playerPos); exact Hinv.
Qed.

Lemma session_run_invariant (evs : list SessionEvent) :
  forall s, session_invariant s -> session_invariant (session_run evs s).
Proof.
  unfold session_run. induction evs as [|ev evs IH]; intros s H; simpl; trivial.
  apply IH, session_step_invariant, H.
Qed.

Lemma session_mount_invariant (noise2D : Q -> Q -> Q) (random : nat -> Q) :
  session_invariant (session_mount (generateWorld noise2D random)).
Proof.
  unfold session_mount. split; [|split].
  - unfold hotbar. simpl. tauto.
  - reflexivity.
  - intros b Hb. simpl in Hb.
    destruct (generateWorld_block_shape noise2D random b Hb)
      as (bx & by_ & bz & Hx & Hy & Hz & _ & _ & _ & Hty & _).
    split.
    + exists bx, by_, bz. rewrite Hx, Hy, Hz. repeat split; reflexivity.
    + destruct (type b); simpl in Hty; split; discriminate.
Qed.

(** X18.  Through a whole session, from the generated world and whatever
    the hotbar and mouse events are, the selection is one of the nine
    hotbar types, the global read by the click handler holds the
    selection, and every block of the store has integer coordinates and a
    type other than torch and stairs: these two types can never be
    placed. *)
Theorem session_keeps_invariant
    (noise2D : Q -> Q -> Q) (random : nat -> Q) (evs : list SessionEvent) :
  session_invariant (session_run evs (session_mount (generateWorld noise2D random))).
Proof.
  pose proof (session_mount_invariant noise2D random) as H.
  revert H. generalize (session_mount (generateWorld noise2D random)).
  unfold session_run.
  induction evs as [|ev evs IH]; intros s H; simpl.
  - exact H.
  - apply IH. apply session_step_invariant. exact H.
Qed.

(** C3.  A selection command that names one of the nine hotbar types, the
    first nine block types, overwrites the selection with it at once, and
    with it the global read by the click handler; the store is not
    touched.  A command that names a type outside the hotbar, or a slot
    beyond the ninth, is not carried out: the whole session state stays as
    it was.  No event ever makes a type outside the hotbar the selection. *)
Theorem selection_command (ty : BlockType) (s : Session.t) :
  hotbar = firstn 9 blockTypes /\
  (In ty hotbar ->
   Session.selectedBlock (selectType ty s) = ty /\
   Session.blocks (selectType ty s) = Session.blocks s /\
   (Session.window_selectedBlockType s = Some (Session.selectedBlock s) ->
    Session.window_selectedBlockType (selectType ty s) = Some ty)) /\
  (~ In ty hotbar -> selectType ty s = s) /\
  (forall i, nth_error hotbar i = Some ty ->
             Session.selectedBlock (session_step s (HotbarButton i Click)) = ty) /\
  (forall i e, nth_error hotbar i = None -> session_step s (HotbarButton i e) = s) /\
  (forall ev, ~ In ty hotbar ->
              Session.selectedBlock (session_step s ev) = ty ->
              Session.selectedBlock s = ty).
Proof.
  split; [reflexivity|]. split; [|split; [|split; [|split]]].
  - intros Hin. unfold selectType.
    assert (exists i, index_of ty hotbar = Some i /\ nth_error hotbar i = Some ty)
      as (i & Ei & Hi).
    { unfold hotbar in *. simpl in Hin.
      repeat (destruct Hin as [<-|Hin]; [eexists; split; reflexivity|]).
      destruct Hin. }
    rewrite Ei. simpl. rewrite Hi. simpl. unfold setSelectedBlock.
    split; [reflexivity|]. split; [reflexivity|].
    intros Hw. destruct (BlockType_eqb ty (Session.selectedBlock s)) eqn:B; trivial.
    apply BlockType_eqb_eq in B. rewrite B. exact Hw.
  - intros Hout. unfold selectType.
    replace (index_of ty hotbar) with (@None nat); trivial.
    unfold hotbar in *. simpl in Hout.
    destruct ty; try reflexivity; exfalso; apply Hout; tauto.
  - intros i Hi. simpl. rewrite Hi. reflexivity.
  - intros i e Hi. simpl. rewrite Hi. reflexivity.
  - intros ev Hout Hsel.
    destruct ev as [i e|hovered playerPos btn].
    + simpl in Hsel. destruct (nth_error hotbar i) as [t|] eqn:Hi; trivial.
      simpl in Hsel.
      destruct (button_result i t e (Session.selectedBlock s)) as [E|E];
        rewrite E in Hsel; trivial.
      apply nth_error_In in Hi. subst t. contradiction.
    + rewrite <- Hsel. simpl. rewrite handleClick_outcome.
      destruct hovered; trivial.
      destruct (visibleBlocks (Session.blocks s) playerPos); reflexivity.
Qed.

Lemma selection_command_witness :
  Session.selectedBlock (selectType stone (session_mount [])) = stone /\
  selectType torch (session_mount []) = session_mount [] /\
  session_step (session_mount []) (HotbarButton 9 Click) = session_mount [].
Proof.
  split; [|split].
  - apply (selection_command stone (session_mount [])).
    unfold hotbar. simpl. tauto.
  - apply (selection_command torch (session_mount [])).
    unfold hotbar. simpl. intuition discriminate.
  - apply (proj1 (proj2 (proj2 (proj2 (proj2
             (selection_command grass (session_mount [])))))) 9%nat Click).
    reflexivity.
Defined.
